(** * Minhas Palavras: answer matching, story highlighting, story selection
      and backup import

    A shallow embedding of the pure logic of the vocabulary application:

    - [learn.tsx]: [removeAccents], [normalizeForComparison],
      [singleAnswerMatches], [answersMatch];
    - [read.tsx]: [highlightPattern], [findMatchedWord],
      [renderStoryWithHighlights];
    - [gemini.ts]: the word selection at the head of [generateStory];
    - [backup.ts]: the validation loop of [importFromJson].

    JavaScript strings are sequences of UTF-16 code units, so a string is a
    [list N] here and [length] is the [.length] of the source. *)

From Stdlib Require Import ZArith NArith List Lia Bool Ascii String.
From Stdlib Require Import Sorting.Sorted Sorting.Permutation.
From stdpp Require Import gmap strings list.
From Equations Require Import Equations.

Set Warnings "-register-all".
Local Open Scope N_scope.

(* ===================================================================== *)
(** ** JavaScript strings *)
(* ===================================================================== *)

Module JS.

(** A string value: its UTF-16 code units. *)
Abbreviation jsstring := (list N).

(** Decoding of a UTF-8 literal of this file into code units, so that the
    examples can be written as the source writes them.  A four-byte sequence
    becomes a surrogate pair. *)
Fixpoint utf8_units (bs : list N) : jsstring :=
  match bs with
  | [] => []
  | b0 :: r0 =>
    if b0 <? 128 then b0 :: utf8_units r0
    else if b0 <? 224 then
      match r0 with
      | b1 :: r1 =>
        N.lor (N.shiftl (N.land b0 31) 6) (N.land b1 63) :: utf8_units r1
      | [] => [b0]
      end
    else if b0 <? 240 then
      match r0 with
      | b1 :: b2 :: r2 =>
        N.lor (N.shiftl (N.land b0 15) 12)
              (N.lor (N.shiftl (N.land b1 63) 6) (N.land b2 63))
          :: utf8_units r2
      | _ => [b0]
      end
    else
      match r0 with
      | b1 :: b2 :: b3 :: r3 =>
        let cp := N.lor (N.shiftl (N.land b0 7) 18)
                 (N.lor (N.shiftl (N.land b1 63) 12)
                 (N.lor (N.shiftl (N.land b2 63) 6) (N.land b3 63))) in
        let v := cp - 65536 in
        (55296 + N.shiftr v 10) :: (56320 + N.land v 1023) :: utf8_units r3
      | _ => [b0]
      end
  end.

Definition js (s : string) : jsstring :=
  utf8_units (map N_of_ascii (list_ascii_of_string s)).

(** [a === b] on strings: the same code units. *)
Fixpoint str_eqb (a b : jsstring) : bool :=
  match a, b with
  | [], [] => true
  | x :: a', y :: b' => (x =? y) && str_eqb a' b'
  | _, _ => false
  end.

(** ECMAScript [WhiteSpace] and [LineTerminator]: what [String.prototype.trim]
    removes and what [\s] matches. *)
Definition isWhiteSpace (c : N) : bool :=
  ((9 <=? c) && (c <=? 13)) || (c =? 32) || (c =? 160) || (c =? 5760)
  || ((8192 <=? c) && (c <=? 8202)) || (c =? 8232) || (c =? 8233)
  || (c =? 8239) || (c =? 8287) || (c =? 12288) || (c =? 65279).

Fixpoint dropWhile (p : N -> bool) (s : jsstring) : jsstring :=
  match s with
  | [] => []
  | c :: s' => if p c then dropWhile p s' else s
  end.

Definition trimStart (s : jsstring) : jsstring := dropWhile isWhiteSpace s.
Definition trimEnd (s : jsstring) : jsstring := rev (trimStart (rev s)).

(** [s.trim()] *)
Definition trim (s : jsstring) : jsstring := trimEnd (trimStart s).

(** [s1 ++ sep ++ s2 ++ ...]: [parts.join(sep)] *)
Fixpoint join (sep : jsstring) (parts : list jsstring) : jsstring :=
  match parts with
  | [] => []
  | [p] => p
  | p :: rest => p ++ sep ++ join sep rest
  end.

(** [sep] is at the head of [s]. *)
Fixpoint startsWith (sep s : jsstring) : bool :=
  match sep, s with
  | [], _ => true
  | x :: sep', y :: s' => (x =? y) && startsWith sep' s'
  | _ :: _, [] => false
  end.

(** [s.split(sep)] for a string separator: [cur] is the piece being
    collected and [skip] counts the code units of a separator found at an
    earlier position that are still to be passed over.  An empty separator
    splits between all code units. *)
Fixpoint split_go (sep s cur : jsstring) (skip : nat) : list jsstring :=
  match s with
  | [] => [cur]
  | c :: s' =>
    match skip with
    | S k => split_go sep s' cur k
    | O =>
      if startsWith sep s
      then cur :: split_go sep s' [] (Nat.pred (length sep))
      else split_go sep s' (cur ++ [c]) O
    end
  end.

Definition split (sep s : jsstring) : list jsstring :=
  match sep with
  | [] => map (fun c => [c]) s
  | _ :: _ => split_go sep s [] O
  end.

(** ASCII case mappings. *)
Definition isAscii (c : N) : bool := c <? 128.
Definition asciiLower (c : N) : N :=
  if (65 <=? c) && (c <=? 90) then c + 32 else c.
Definition asciiUpper (c : N) : N :=
  if (97 <=? c) && (c <=? 122) then c - 32 else c.

(** The Unicode tables of the platform are not part of the repository.  The
    program reaches them through three built-ins, which are taken as given:
    [String.prototype.toLowerCase], [String.prototype.normalize('NFD')], and
    the [Canonicalize] operation of a regular expression carrying the [i]
    flag without the [u] flag (the upper-case mapping of one code unit).
    The two laws are the ones every conforming engine satisfies: ASCII
    strings are lower-cased letter by letter, and the empty string is its
    own normal form. *)
Class Platform := {
  toLowerCase : jsstring -> jsstring;
  normalizeNFD : jsstring -> jsstring;
  canonicalize : N -> N;
  toLowerCase_ascii :
    forall s, forallb isAscii s = true -> toLowerCase s = map asciiLower s;
  normalizeNFD_empty : normalizeNFD [] = []
}.

End JS.
Import JS.

(* ===================================================================== *)
(** ** The built-ins on Basic Latin and the Latin-1 Supplement *)
(* ===================================================================== *)

Module Latin1.

(** Lower-case mapping of one code unit below U+0100; other code units are
    left as they are. *)
Definition lowerUnit (c : N) : N :=
  if (65 <=? c) && (c <=? 90) then c + 32
  else if (192 <=? c) && (c <=? 222) && negb (c =? 215) then c + 32
  else c.

(** Canonical decompositions of the Latin-1 Supplement: base letter and
    combining mark. *)
Definition decompositions : list (N * jsstring) :=
  [ (192, [65; 768]); (193, [65; 769]); (194, [65; 770]); (195, [65; 771]);
    (196, [65; 776]); (197, [65; 778]); (199, [67; 807]); (200, [69; 768]);
    (201, [69; 769]); (202, [69; 770]); (203, [69; 776]); (204, [73; 768]);
    (205, [73; 769]); (206, [73; 770]); (207, [73; 776]); (209, [78; 771]);
    (210, [79; 768]); (211, [79; 769]); (212, [79; 770]); (213, [79; 771]);
    (214, [79; 776]); (217, [85; 768]); (218, [85; 769]); (219, [85; 770]);
    (220, [85; 776]); (221, [89; 769]); (224, [97; 768]); (225, [97; 769]);
    (226, [97; 770]); (227, [97; 771]); (228, [97; 776]); (229, [97; 778]);
    (231, [99; 807]); (232, [101; 768]); (233, [101; 769]); (234, [101; 770]);
    (235, [101; 776]); (236, [105; 768]); (237, [105; 769]); (238, [105; 770]);
    (239, [105; 776]); (241, [110; 771]); (242, [111; 768]); (243, [111; 769]);
    (244, [111; 770]); (245, [111; 771]); (246, [111; 776]); (249, [117; 768]);
    (250, [117; 769]); (251, [117; 770]); (252, [117; 776]); (253, [121; 769]);
    (255, [121; 776]) ].

Fixpoint decompose (table : list (N * jsstring)) (c : N) : jsstring :=
  match table with
  | [] => [c]
  | (k, d) :: table' => if c =? k then d else decompose table' c
  end.

Definition nfd (s : jsstring) : jsstring :=
  flat_map (decompose decompositions) s.

(** Upper-case mapping of one code unit as [Canonicalize] uses it: the sharp
    s has a two-unit upper case and stays; the micro sign and y with
    diaeresis leave Latin-1. *)
Definition upperUnit (c : N) : N :=
  if (97 <=? c) && (c <=? 122) then c - 32
  else if (224 <=? c) && (c <=? 254) && negb (c =? 247) then c - 32
  else if c =? 181 then 924
  else if c =? 255 then 376
  else c.

End Latin1.

(* ===================================================================== *)
(** ** learn.tsx: the answer matcher *)
(* ===================================================================== *)

Module Learn.

(** Articles to ignore when comparing answers. *)
Definition ARTICLES : list jsstring :=
  map js
    [ (* Portuguese *)
      "o"; "a"; "os"; "as"; "um"; "uma"; "uns"; "umas";
      (* French *)
      "le"; "la"; "les"; "l'"; "un"; "une"; "des"; "du"; "de la"; "de l'"
    ]%string.

(** The entries of [accentMap], in the order of [Object.entries]. *)
Definition accentMap : list (jsstring * jsstring) :=
  map (fun kv : string * string => (js kv.1, js kv.2))
    [ ("à", "a"); ("á", "a"); ("â", "a"); ("ã", "a"); ("ä", "a"); ("å", "a");
      ("è", "e"); ("é", "e"); ("ê", "e"); ("ë", "e");
      ("ì", "i"); ("í", "i"); ("î", "i"); ("ï", "i");
      ("ò", "o"); ("ó", "o"); ("ô", "o"); ("õ", "o"); ("ö", "o");
      ("ù", "u"); ("ú", "u"); ("û", "u"); ("ü", "u");
      ("ñ", "n"); ("ç", "c"); ("ý", "y"); ("ÿ", "y");
      ("À", "A"); ("Á", "A"); ("Â", "A"); ("Ã", "A"); ("Ä", "A"); ("Å", "A");
      ("È", "E"); ("É", "E"); ("Ê", "E"); ("Ë", "E");
      ("Ì", "I"); ("Í", "I"); ("Î", "I"); ("Ï", "I");
      ("Ò", "O"); ("Ó", "O"); ("Ô", "O"); ("Õ", "O"); ("Ö", "O");
      ("Ù", "U"); ("Ú", "U"); ("Û", "U"); ("Ü", "U");
      ("Ñ", "N"); ("Ç", "C"); ("Ý", "Y")
    ]%string.

(** The class of the pattern that deletes combining marks, U+0300 to
    U+036F, and the global replacement by the empty string. *)
Definition isCombiningMark (c : N) : bool := (768 <=? c) && (c <=? 879).
Definition stripCombiningMarks (s : jsstring) : jsstring :=
  List.filter (fun c => negb (isCombiningMark c)) s.

(** [Array.prototype.sort] with a comparator is stable: an element is put
    before the first later element that the comparator does not order
    before it. *)
Section Sort.
Context {A : Type} (cmp : A -> A -> Z).

Fixpoint sort_insert (x : A) (l : list A) : list A :=
  match l with
  | [] => [x]
  | y :: l' => if (cmp x y <=? 0)%Z then x :: l else y :: sort_insert x l'
  end.

Definition sort (l : list A) : list A := fold_right sort_insert [] l.
End Sort.

(** The comparator [(a, b) => b.length - a.length]. *)
Definition byLengthDesc (a b : jsstring) : Z :=
  (Z.of_nat (length b) - Z.of_nat (length a))%Z.

Definition sortedArticles : list jsstring := sort byLengthDesc ARTICLES.

(** A pattern character of an article is an ASCII character; under the [i]
    flag it matches the code units with the same [Canonicalize] image.  The
    image of an ASCII unit is its ASCII upper case, and [Canonicalize] never
    sends a unit from U+0080 on below U+0080, so the test is the equality of
    the ASCII upper cases. *)
Definition matchUnitCI (p c : N) : bool := asciiUpper p =? asciiUpper c.

(** The rest of [s] after the pattern [^article] with the [i] flag. *)
Fixpoint matchPrefixCI (article s : jsstring) : option jsstring :=
  match article, s with
  | [], _ => Some s
  | p :: article', c :: s' =>
    if matchUnitCI p c then matchPrefixCI article' s' else None
  | _ :: _, [] => None
  end.

(** [s.replace(new RegExp(`^${article}\\s+`, 'i'), '')] *)
Definition replaceArticleSpace (article s : jsstring) : jsstring :=
  match matchPrefixCI article s with
  | Some (c :: rest) =>
    if isWhiteSpace c then dropWhile isWhiteSpace rest else s
  | _ => s
  end.

(** [s.replace(new RegExp(`^${article}$`, 'i'), '')] *)
Definition replaceArticleAlone (article s : jsstring) : jsstring :=
  match matchPrefixCI article s with
  | Some [] => []
  | _ => s
  end.

(** [s.replace(/^l'/i, '')] *)
Definition replaceElision (s : jsstring) : jsstring :=
  match matchPrefixCI (js "l'") s with
  | Some rest => rest
  | None => s
  end.

(** The patterns that [normalizeForComparison] applies, in the order in
    which it applies them: for each article, longest first, the article
    before white space and then the article alone; at the end the elided
    article. *)
Inductive ArticlePattern :=
| BeforeSpace (article : jsstring)
| Alone (article : jsstring)
| Elision.

Definition patternSequence : list ArticlePattern :=
  flat_map (fun article => [BeforeSpace article; Alone article]) sortedArticles
  ++ [Elision].

Definition applyPattern (s : jsstring) (p : ArticlePattern) : jsstring :=
  match p with
  | BeforeSpace article => replaceArticleSpace article s
  | Alone article => replaceArticleAlone article s
  | Elision => replaceElision s
  end.

(** The pattern matches [s], so that the replacement removes an article. *)
Definition patternMatches (s : jsstring) (p : ArticlePattern) : bool :=
  match p with
  | BeforeSpace article =>
    match matchPrefixCI article s with
    | Some (c :: _) => isWhiteSpace c
    | _ => false
    end
  | Alone article =>
    match matchPrefixCI article s with
    | Some [] => true
    | _ => false
    end
  | Elision =>
    match matchPrefixCI (js "l'") s with
    | Some _ => true
    | None => false
    end
  end.

(** The run of the patterns [ps] on [s], recording those that matched. *)
Fixpoint runPatterns (ps : list ArticlePattern) (s : jsstring)
  : list ArticlePattern * jsstring :=
  match ps with
  | [] => ([], s)
  | p :: ps' =>
    let '(fired, s') := runPatterns ps' (applyPattern s p) in
    (if patternMatches s p then p :: fired else fired, s')
  end.

Section Matcher.
Context {P : Platform}.

(** Remove accents from text for lenient comparison. *)
Definition removeAccents (text : jsstring) : jsstring :=
  let result := stripCombiningMarks (normalizeNFD text) in
  fold_left
    (fun result '(accented, plain) => join plain (split accented result))
    accentMap result.

(** The body of the loop over [sortedArticles]: the two patterns, in order. *)
Definition stripArticle (normalized article : jsstring) : jsstring :=
  replaceArticleAlone article (replaceArticleSpace article normalized).

Definition normalizeForComparison (text : jsstring) : jsstring :=
  let normalized := toLowerCase (trim text) in
  let normalized := fold_left stripArticle sortedArticles normalized in
  let normalized := replaceElision normalized in
  trim normalized.

(** The articles that [normalizeForComparison] removes from [text], as the
    patterns that matched, together with its result. *)
Definition normalizeTrace (text : jsstring)
  : list ArticlePattern * jsstring :=
  let '(fired, normalized) :=
    runPatterns patternSequence (toLowerCase (trim text)) in
  (fired, trim normalized).

Definition singleAnswerMatches (userAnswer correctAnswer : jsstring) : bool :=
  let userTrimmed := toLowerCase (trim userAnswer) in
  let correctTrimmed := toLowerCase (trim correctAnswer) in
  if str_eqb userTrimmed correctTrimmed then true
  else if str_eqb (removeAccents userTrimmed) (removeAccents correctTrimmed)
  then true
  else
    let normalizedUser := normalizeForComparison userAnswer in
    let normalizedCorrect := normalizeForComparison correctAnswer in
    if str_eqb normalizedUser normalizedCorrect then true
    else if str_eqb (removeAccents normalizedUser)
                    (removeAccents normalizedCorrect)
    then true
    else false.

(** The trimmed alternatives of a correct answer. *)
Definition validAnswers (correctAnswer : jsstring) : list jsstring :=
  map trim (split (js "/") correctAnswer).

Definition answersMatch (userAnswer correctAnswer : jsstring) : bool :=
  existsb (singleAnswerMatches userAnswer) (validAnswers correctAnswer).

End Matcher.
End Learn.

Import Learn.

(* ===================================================================== *)
(** ** read.tsx: highlighting the vocabulary of a story *)
(* ===================================================================== *)

Module Read.

Record UsedWord := { portuguese : jsstring; french : jsstring }.

(** The class [[.*+?^${}()|[\]\\]]: the characters that mean something in a
    pattern. *)
Definition isRegExpSpecial (c : N) : bool :=
  existsb (N.eqb c) (js ".*+?^${}()|[]\").

(** [phrase.replace(/[.*+?^${}()|[\]\\]/g, '\\$&')] *)
Definition escapeRegExp (phrase : jsstring) : jsstring :=
  flat_map (fun c => if isRegExpSpecial c then [92; c] else [c]) phrase.

(** The comparator [(a, b) => b.portuguese.length - a.portuguese.length]. *)
Definition byPortugueseLengthDesc (a b : UsedWord) : Z :=
  byLengthDesc (portuguese a) (portuguese b).

(** The source text handed to [new RegExp]: one capturing group around the
    alternation of the escaped phrases. *)
Definition patternSource (sortedWords : list UsedWord) : jsstring :=
  let patterns := map (fun w => escapeRegExp (portuguese w)) sortedWords in
  js "(" ++ join (js "|") patterns ++ js ")".

(** Reading a pattern source of the shape [( a1 | ... | an )] in which every
    special character is escaped: a backslash before a special character is
    that character, a bar separates alternatives, the closing parenthesis
    ends the group and the source, and any other character is itself; the
    alternatives are literal phrases.  Any other source is outside what
    [highlightPattern] builds. *)
Fixpoint readAlternatives (src cur : jsstring) : option (list jsstring) :=
  match src with
  | [] => None
  | c :: src' =>
    if c =? 92 then
      match src' with
      | d :: src'' =>
        if isRegExpSpecial d then readAlternatives src'' (cur ++ [d])
        else None
      | [] => None
      end
    else if c =? 124 then
      match readAlternatives src' [] with
      | Some alts => Some (cur :: alts)
      | None => None
      end
    else if c =? 41 then
      match src' with
      | [] => Some [cur]
      | _ :: _ => None
      end
    else if isRegExpSpecial c then None
    else readAlternatives src' (cur ++ [c])
  end.

(** A compiled pattern with the flags [gi]: its literal alternatives, in
    the order in which they are tried. *)
Definition compileRegExp (src : jsstring) : option (list jsstring) :=
  match src with
  | 40 :: src' => readAlternatives src' []
  | _ => None
  end.

(** Build a pattern from the used words for highlighting; [None] is the
    [null] of the source, and also stands for a pattern that does not
    compile (which [compile_patternSource] rules out). *)
Definition highlightPattern (usedWords : list UsedWord)
  : option (list jsstring) :=
  match usedWords with
  | [] => None
  | _ :: _ =>
    let sortedWords := sort byPortugueseLengthDesc usedWords in
    compileRegExp (patternSource sortedWords)
  end.

Inductive Segment :=
| Plain (text : jsstring)
| Highlighted (text : jsstring) (word : UsedWord).

Definition segmentText (seg : Segment) : jsstring :=
  match seg with
  | Plain text => text
  | Highlighted text _ => text
  end.

Section Highlight.
Context {P : Platform}.

(** A literal phrase matches at the head of [s] under the [i] flag: unit by
    unit, the [Canonicalize] images agree. *)
Fixpoint matchesAt (phrase s : jsstring) : bool :=
  match phrase, s with
  | [], _ => true
  | p :: phrase', c :: s' =>
    (canonicalize p =? canonicalize c) && matchesAt phrase' s'
  | _ :: _, [] => false
  end.

(** The match of the alternation at the head of [s]: the first alternative
    that matches decides; the result is the length of the match. *)
Definition matchAt (alts : list jsstring) (s : jsstring) : option nat :=
  match find (fun alt => matchesAt alt s) alts with
  | Some alt => Some (length alt)
  | None => None
  end.

(** The loop of [RegExp.prototype[Symbol.split]].  [acc] is the text between
    the end [p] of the last match and the position [q]; [s] is the text from
    [q] on.  A match that ends at [p] only advances [q]; any other match
    pushes the text before it and the captured group, and moves [p] and [q]
    behind it. *)
Equations? splitLoop (alts : list jsstring) (acc s : jsstring)
  : list jsstring
  by wf (2 * length s + (if acc is [] then 0 else 1))%nat lt :=
splitLoop alts acc [] := [acc];
splitLoop alts acc (c :: s') with matchAt alts (c :: s') := {
  | None => splitLoop alts (acc ++ [c]) s'
  | Some (S k) =>
      acc :: take (S k) (c :: s') :: splitLoop alts [] (drop k s')
  | Some O with acc := {
    | [] => splitLoop alts [c] s'
    | a :: acc' => (a :: acc') :: [] :: splitLoop alts [] (c :: s') } }.
Proof.
  all: simpl; try (destruct acc; simpl; lia).
  rewrite length_drop. destruct acc; simpl; lia.
Defined.

(** [s.split(pattern)] for a pattern with one capturing group. *)
Definition regexSplit (alts : list jsstring) (s : jsstring)
  : list jsstring :=
  match s with
  | [] => match matchAt alts [] with Some _ => [] | None => [[]] end
  | _ :: _ => splitLoop alts [] s
  end.

(** Find which word was matched (case-insensitive). *)
Definition findMatchedWord (usedWords : list UsedWord) (text : jsstring)
  : option UsedWord :=
  find (fun w => str_eqb (toLowerCase (portuguese w)) (toLowerCase text))
       usedWords.

(** Render the story with highlighted words: the children of the outer
    [Text] element, in order. *)
Definition renderStoryWithHighlights (story : jsstring)
  (usedWords : list UsedWord) : list Segment :=
  match story, highlightPattern usedWords with
  | [], _ | _, None => [Plain story]
  | _ :: _, Some pattern =>
    map (fun part =>
           match findMatchedWord usedWords part with
           | Some matchedWord => Highlighted part matchedWord
           | None => Plain part
           end)
        (regexSplit pattern story)
  end.

End Highlight.
End Read.

(* ===================================================================== *)
(** ** gemini.ts: the words selected for a story *)
(* ===================================================================== *)

Module Gemini.
Local Open Scope Z_scope.

(** The literal [0.3] is the binary64 number [mantissa03 * 2^-54]. *)
Definition mantissa03 : Z := 5404319552844595.

(** [P / 2^e] rounded to the nearest integer, ties to the even one: the
    rounding of binary64 arithmetic, for [0 < e]. *)
Definition roundNearestEven (P e : Z) : Z :=
  let q := P / 2 ^ e in
  let r := P mod 2 ^ e in
  let half := 2 ^ (e - 1) in
  if r <? half then q
  else if half <? r then q + 1
  else if Z.even q then q else q + 1.

(** [Math.floor(n * 0.3)] for an array length [n]: the exact product
    [n * mantissa03 * 2^-54] is rounded to 53 significant bits, and the
    floor of the rounded number is taken.  Array lengths are below [2^32],
    so [n] itself is a binary64 number and the product neither overflows
    nor is subnormal. *)
Definition floorTimes03 (n : Z) : Z :=
  let P := n * mantissa03 in
  if P <=? 0 then 0
  else
    let e := Z.log2 P - 52 in
    let m := if e <=? 0 then P else roundNearestEven P e in
    let e := Z.max e 0 in
    if 54 <=? e then m * 2 ^ (e - 54) else m / 2 ^ (54 - e).

(** [Math.min(25, Math.max(15, Math.floor(words.length * 0.3)))] *)
Definition sliceEnd (n : nat) : nat :=
  Z.to_nat (Z.min 25 (Z.max 15 (floorTimes03 (Z.of_nat n)))).

Section Select.
Context {A : Type}.

(** Select a random subset of words to include in the story.  [shuffled] is
    the outcome of sorting a copy of [words] with the random comparator:
    some rearrangement of [words]. *)
Definition selectedWords (words shuffled : list A) : list A :=
  take (sliceEnd (length words)) shuffled.

End Select.

(** The selection size as the specification words it: [0.3 * N] rounded to
    the nearest integer (halves up, as [Math.round] does), clamped to
    [15..25], and capped at [N]. *)
Definition specSelectionSize (n : nat) : nat :=
  Z.to_nat (Z.min (Z.of_nat n)
                  (Z.min 25 (Z.max 15 ((3 * Z.of_nat n + 5) / 10)))).

End Gemini.

(* ===================================================================== *)
(** ** backup.ts: importing a backup *)
(* ===================================================================== *)

Module Backup.
Local Open Scope Z_scope.
Local Open Scope string_scope.

(** A value produced by [JSON.parse].  An object is a finite map from
    property names to values.  A number is kept as an integer: the code only
    asks whether it is zero, and [Date.now()] yields whole milliseconds. *)
Inductive json :=
| JNull
| JBool (b : bool)
| JNum (n : Z)
| JStr (s : string)
| JArr (items : list json)
| JObj (fields : gmap string json).

(** What [importFromJson] can throw. *)
Inductive Thrown :=
| ImportCancelled        (* Error('Import cancelled') *)
| JsonSyntaxError        (* JSON.parse on a text that is not JSON *)
| NullPropertyRead       (* TypeError: a property of null is read *)
| InvalidFormat          (* Error('Invalid backup file format') *)
| InvalidWordData.       (* Error('Invalid word data in backup file') *)

(** [!v] is false: a property that is absent reads as [undefined]. *)
Definition truthy (v : option json) : bool :=
  match v with
  | None | Some JNull => false
  | Some (JBool b) => b
  | Some (JNum n) => negb (Z.eqb n 0)
  | Some (JStr s) => negb (String.eqb s "")
  | Some (JArr _) | Some (JObj _) => true
  end.

(** [Array.isArray(v)] *)
Definition isArray (v : option json) : bool :=
  match v with
  | Some (JArr _) => true
  | _ => false
  end.

(** The outcome of the document picker and of reading the chosen file:
    the text it holds parses to [Some data] or is not JSON at all. *)
Inductive PickerResult :=
| Canceled
| Picked (parsed : option json).

Section Validation.

(** The clock: the value of the [k]-th call of [Date.now()]. *)
Variable clock : nat -> Z.

(** A computation that may throw and that counts the clock readings. *)
Definition M (A : Type) : Type := nat -> Thrown + (A * nat).

Definition ret {A} (a : A) : M A := fun k => inr (a, k).
Definition throw {A} (e : Thrown) : M A := fun _ => inl e.
Definition bind {A B} (c : M A) (f : A -> M B) : M B :=
  fun k => match c k with
           | inl e => inl e
           | inr (a, k') => f a k'
           end.
Definition dateNow : M json := fun k => inr (JNum (clock k), S k).

Notation "'let!' x ':=' c 'in' f" := (bind c (fun x => f))
  (at level 10, x name, c at level 100, f at level 200).

(** [if (!word[key]) word[key] = Date.now();] *)
Definition ensureTimestamp (key : string) (word : gmap string json)
  : M (gmap string json) :=
  if truthy (word !! key) then ret word
  else let! now := dateNow in ret (<[key := now]> word).

(** [if (!Array.isArray(word.examples)) word.examples = [];] *)
Definition ensureExamples (word : gmap string json) : gmap string json :=
  if isArray (word !! "examples") then word
  else <["examples" := JArr []]> word.

(** The body of the loop over [data.words].  Reading a property of [null]
    throws; a primitive or an array has none of the three properties. *)
Definition checkWord (word : json) : M json :=
  match word with
  | JNull => throw NullPropertyRead
  | JObj w =>
    if negb (truthy (w !! "id")) || negb (truthy (w !! "portuguese"))
       || negb (truthy (w !! "french"))
    then throw InvalidWordData
    else
      let! w := ensureTimestamp "createdAt" (ensureExamples w) in
      let! w := ensureTimestamp "updatedAt" w in
      ret (JObj w)
  | _ => throw InvalidWordData
  end.

Fixpoint checkWords (words : list json) : M (list json) :=
  match words with
  | [] => ret []
  | word :: rest =>
    let! word' := checkWord word in
    let! rest' := checkWords rest in
    ret (word' :: rest')
  end.

(** Validate the imported data and return [data.words]. *)
Definition validateBackup (data : json) : M (list json) :=
  match data with
  | JNull => throw NullPropertyRead
  | JObj d =>
    match d !! "words" with
    | Some (JArr words) => checkWords words
    | _ => throw InvalidFormat
    end
  | _ => throw InvalidFormat
  end.

Definition importFromJson (result : PickerResult) : M (list json) :=
  match result with
  | Canceled => throw ImportCancelled
  | Picked None => throw JsonSyntaxError
  | Picked (Some data) => validateBackup data
  end.

End Validation.

(** The document has a [words] array. *)
Definition wordsArray (data : json) : option (list json) :=
  match data with
  | JObj d =>
    match d !! "words" with
    | Some (JArr words) => Some words
    | _ => None
    end
  | _ => None
  end.

(** The word has the three required properties, none of them empty (for a
    value that is not a string: none of them falsy). *)
Definition wordValid (word : json) : bool :=
  match word with
  | JObj w =>
    truthy (w !! "id") && truthy (w !! "portuguese") && truthy (w !! "french")
  | _ => false
  end.

(** [word'] is [word] repaired: [examples] is the array it was or else the
    empty array, a timestamp is the truthy value it was or else a reading of
    the clock made between the readings [k0] and [k1], and every other
    property is as it was. *)
Definition timestampRepaired (clock : nat -> Z) (k0 k1 : nat)
  (old new : option json) : Prop :=
  if truthy old then new = old
  else exists k, (k0 <= k < k1)%nat /\ new = Some (JNum (clock k)).

Definition repaired (clock : nat -> Z) (k0 k1 : nat) (word word' : json)
  : Prop :=
  exists w w' : gmap string json,
    word = JObj w /\ word' = JObj w'
    /\ w' !! "examples"
       = (if isArray (w !! "examples") then w !! "examples"
          else Some (JArr []))
    /\ timestampRepaired clock k0 k1 (w !! "createdAt") (w' !! "createdAt")
    /\ timestampRepaired clock k0 k1 (w !! "updatedAt") (w' !! "updatedAt")
    /\ forall key : string,
         key <> "examples" -> key <> "createdAt" -> key <> "updatedAt" ->
         w' !! key = w !! key.

End Backup.

(* ===================================================================== *)
(** ** types/index.ts and learn.tsx: the quiz and the voice *)
(* ===================================================================== *)

Module Vocabulary.

(** A word of the vocabulary. *)
Record Word := {
  id : jsstring;
  portuguese : jsstring;
  french : jsstring;
  examples : list jsstring;
  createdAt : Z;
  updatedAt : Z
}.

End Vocabulary.

Module Quiz.

(** [hay.includes(needle)] *)
Fixpoint includes (needle hay : jsstring) : bool :=
  startsWith needle hay
  || match hay with
     | [] => false
     | _ :: hay' => includes needle hay'
     end.

(** The state of the quiz: the [useState] cells that [startQuiz] and
    [checkAnswer] read and write. *)
Record QuizState := {
  currentWord : option Vocabulary.Word;
  showPortuguese : bool;
  userAnswer : jsstring;
  isAnswered : bool;
  isCorrect : bool
}.

(** [startQuiz]: [word] is what [getRandomWord()] returns and [coin] is
    [Math.random() > 0.5]. *)
Definition startQuiz (word : option Vocabulary.Word) (coin : bool)
  (st : QuizState) : QuizState :=
  {| currentWord := word; showPortuguese := coin; userAnswer := [];
     isAnswered := false; isCorrect := false |}.

(** [setUserAnswer], the [onChangeText] of the answer field. *)
Definition setUserAnswer (text : jsstring) (st : QuizState) : QuizState :=
  {| currentWord := currentWord st; showPortuguese := showPortuguese st;
     userAnswer := text; isAnswered := isAnswered st;
     isCorrect := isCorrect st |}.

(** A voice of the speech synthesizer. *)
Record Voice := {
  language : jsstring;
  identifier : jsstring;
  name : jsstring
}.

(** The first predicate of [findPtPTVoice]: an exact pt-PT match. *)
Definition isExactPtPT (v : Voice) : bool :=
  str_eqb (language v) (js "pt-PT")
  || str_eqb (language v) (js "pt_PT")
  || includes (js "pt-PT") (identifier v)
  || includes (js "pt_PT") (identifier v).

Section Learn.
Context {P : Platform}.

Definition checkAnswer (st : QuizState) : QuizState :=
  match currentWord st with
  | None => st
  | Some word =>
    match trim (userAnswer st) with
    | [] => st
    | _ :: _ =>
      let correctAnswer :=
        if showPortuguese st then Vocabulary.french word
        else Vocabulary.portuguese word in
      let isAnswerCorrect := answersMatch (userAnswer st) correctAnswer in
      {| currentWord := currentWord st; showPortuguese := showPortuguese st;
         userAnswer := userAnswer st; isAnswered := true;
         isCorrect := isAnswerCorrect |}
    end
  end.

(** The second predicate of [findPtPTVoice]: a Portugal-specific voice by
    name. *)
Definition isPortugalByName (v : Voice) : bool :=
  startsWith (js "pt") (language v)
  && (includes (js "portugal") (toLowerCase (name v))
      || includes (js "european") (toLowerCase (name v))).

(** [findPtPTVoice].  [cache] is the module variable [ptPTVoiceId], [None]
    for [null]; [voices] is the outcome of [getAvailableVoicesAsync], [None]
    when it throws.  The result is the returned promise's value, [None] for
    [null], paired with the new value of [ptPTVoiceId]. *)
Definition findPtPTVoice (cache : option jsstring)
  (voices : option (list Voice)) : option jsstring * option jsstring :=
  match cache with
  | Some ptPTVoiceId => (Some ptPTVoiceId, cache)
  | None =>
    match voices with
    | None => (None, None)
    | Some voices =>
      let voice :=
        match find isExactPtPT voices with
        | Some voice => Some voice
        | None => find isPortugalByName voices
        end in
      let ptPTVoiceId :=
        match voice with
        | Some voice => identifier voice
        | None => []
        end in
      (match ptPTVoiceId with [] => None | _ :: _ => Some ptPTVoiceId end,
       Some ptPTVoiceId)
    end
  end.

End Learn.
End Quiz.

(* ===================================================================== *)
(** ** learn.tsx: the accent table read unit by unit *)
(* ===================================================================== *)

Module Accents.

(** The plain letter that [accentMap] gives for one code unit, or the unit
    itself when the table has no entry for it. *)
Definition accentFold (c : N) : N :=
  match find (fun kv : jsstring * jsstring => str_eqb kv.1 [c]) accentMap with
  | Some (_, p :: _) => p
  | _ => c
  end.

(** The code unit is a key of [accentMap]. *)
Definition isAccented (c : N) : bool :=
  existsb (fun kv : jsstring * jsstring => str_eqb kv.1 [c]) accentMap.

End Accents.

(* ===================================================================== *)
(** ** read.tsx: the pieces of the split *)
(* ===================================================================== *)

Module Pieces.

(** The pieces at the odd places of the array that [split] returns: with one
    capturing group, the texts that the pattern matched. *)
Fixpoint capturedPieces (pieces : list jsstring) : list jsstring :=
  match pieces with
  | _ :: captured :: rest => captured :: capturedPieces rest
  | _ => []
  end.

End Pieces.

(* ===================================================================== *)
(** ** gemini.ts: reading the generated text *)
(* ===================================================================== *)

Module GeminiText.

(** What the two generators can throw after the response has arrived. *)
Inductive Thrown :=
| NoResponse.            (* Error('No response from Gemini') *)

(** [\d] *)
Definition isDigit (c : N) : bool := (48 <=? c) && (c <=? 57).

(** [line.replace(/^\d+[\.\)]\s*/, '')]: the longest run of digits at the
    start, a full stop or a closing parenthesis, and the white space that
    follows.  With fewer digits the next character would be a digit, so no
    other way of matching exists. *)
Definition stripNumbering (line : jsstring) : jsstring :=
  match line with
  | [] => line
  | c :: _ =>
    if isDigit c then
      match dropWhile isDigit line with
      | mark :: rest =>
        if (mark =? 46) || (mark =? 41) then dropWhile isWhiteSpace rest
        else line
      | [] => line
      end
    else line
  end.

Definition nonEmpty (line : jsstring) : bool :=
  match line with
  | [] => false
  | _ :: _ => true
  end.

(** The separator ['\n'] of the lines. *)
Definition lineFeed : jsstring := [10].

(** The end of [generateExampleSentences].  [text] is the value of
    [data.candidates?.[0]?.content?.parts?.[0]?.text], [None] when the
    chain gives [undefined]. *)
Definition parseSentences (text : option jsstring)
  : Thrown + list jsstring :=
  match option_map trim text with
  | None | Some [] => inl NoResponse
  | Some generatedText =>
    inr (List.filter nonEmpty
           (map (fun line => trim (stripNumbering line))
              (List.filter nonEmpty
                 (map trim (split lineFeed generatedText)))))
  end.

(** [s.replace(/literal/g, replacement)] for a literal that is not empty:
    the texts between the successive occurrences of the literal, found from
    the left and not overlapping, joined by the replacement. *)
Definition replaceAll (literal replacement s : jsstring) : jsstring :=
  join replacement (split literal s).

(** The end of [generateStory]: remove any markdown formatting. *)
Definition cleanText (generatedText : jsstring) : jsstring :=
  replaceAll (js "_") (js " ")
    (replaceAll (js "__") []
       (replaceAll (js "*") []
          (replaceAll (js "**") [] generatedText))).

Definition cleanStory (text : option jsstring) : Thrown + jsstring :=
  match option_map trim text with
  | None | Some [] => inl NoResponse
  | Some generatedText => inr (cleanText generatedText)
  end.

(** A line of a numbered list as the prompt asks for it: digits, a full
    stop or a closing parenthesis, blanks, and the sentence. *)
Record NumberedLine := {
  digits : jsstring;
  mark : N;
  blanks : jsstring;
  sentence : jsstring
}.

Definition renderLine (l : NumberedLine) : jsstring :=
  digits l ++ [mark l] ++ blanks l ++ sentence l.

Definition wellFormed (l : NumberedLine) : Prop :=
  digits l <> [] /\ forallb isDigit (digits l) = true
  /\ (mark l = 46 \/ mark l = 41)
  /\ forallb isWhiteSpace (blanks l) = true /\ ~ In 10 (blanks l)
  /\ sentence l <> [] /\ trim (sentence l) = sentence l
  /\ ~ In 10 (sentence l).

End GeminiText.

(* ===================================================================== *)
(** ** backup.ts and settings.tsx: exporting, and the import button *)
(* ===================================================================== *)

Module BackupFile.
Import Backup.
Local Open Scope Z_scope.
Local Open Scope string_scope.

(** A word as a backup holds it: its strings are strings of the JSON
    document, its timestamps whole milliseconds. *)
Record Word := {
  id : string;
  portuguese : string;
  french : string;
  examples : list string;
  createdAt : Z;
  updatedAt : Z
}.

(** The word as [JSON.stringify] writes it and [JSON.parse] reads it. *)
Definition wordJson (w : Word) : json :=
  JObj (<["id" := JStr (id w)]>
        (<["portuguese" := JStr (portuguese w)]>
         (<["french" := JStr (french w)]>
          (<["examples" := JArr (map JStr (examples w))]>
           (<["createdAt" := JNum (createdAt w)]>
            (<["updatedAt" := JNum (updatedAt w)]> ∅)))))).

(** [backupData], with [exportedAt] the value of
    [new Date().toISOString()]. *)
Definition backupData (exportedAt : string) (words : list Word) : json :=
  JObj (<["version" := JNum 1]>
        (<["exportedAt" := JStr exportedAt]>
         (<["words" := JArr (map wordJson words)]> ∅))).

Inductive ExportThrown :=
| SharingUnavailable.   (* Error('Sharing is not available on this device') *)

(** [exportToJson]: the document whose JSON text is written to the cache
    file, and the outcome; [canShare] is the value of [isAvailableAsync()].
    The file is written before sharing is looked at. *)
Definition exportToJson (exportedAt : string) (canShare : bool)
  (words : list Word) : json * (ExportThrown + unit) :=
  (backupData exportedAt words,
   if canShare then inr tt else inl SharingUnavailable).

End BackupFile.

Module Settings.
Import Backup.

(** What the import button shows when it is done. *)
Inductive Alert :=
| SuccessAlert (count : nat)     (* 'Succès', `${words.length} mots ...` *)
| ImportFailedAlert (e : Thrown) (* 'Échec de l'import', error.message *)
| StoreFailedAlert               (* the same alert, for an error of the store *)
| NoAlert.

(** The word is an object with the three required properties and an
    [examples] array and both timestamps: what [importWords] reads. *)
Definition wordComplete (word : json) : bool :=
  match word with
  | JObj w =>
    truthy (w !! "id"%string) && truthy (w !! "portuguese"%string)
    && truthy (w !! "french"%string) && isArray (w !! "examples"%string)
    && truthy (w !! "createdAt"%string) && truthy (w !! "updatedAt"%string)
  | _ => false
  end.

Section HandleImport.
Variable clock : nat -> Z.

(** The [onPress] of the confirmation in [handleImport].  [storeFails] tells
    whether [importWords] rejects.  The result is the list that
    [importWords] is called with, if it is called, and the alert. *)
Definition handleImport (result : PickerResult) (storeFails : bool)
  (k : nat) : option (list json) * Alert :=
  match importFromJson clock result k with
  | inr (words, _) =>
    (Some words,
     if storeFails then StoreFailedAlert else SuccessAlert (length words))
  | inl ImportCancelled => (None, NoAlert)
  | inl e => (None, ImportFailedAlert e)
  end.

End HandleImport.
End Settings.

(* ===================================================================== *)
(** ** The word list screen, the vocabulary context and the add screen *)
(* ===================================================================== *)

Module WordList.
Import Vocabulary.

Inductive SortOption := newest | oldest | alphabetical.

Definition sortOption_eqb (a b : SortOption) : bool :=
  match a, b with
  | newest, newest | oldest, oldest | alphabetical, alphabetical => true
  | _, _ => false
  end.

(** The keys of [sortOptions], in order. *)
Definition sortOptions : list SortOption := [newest; oldest; alphabetical].

(** [l.findIndex(p)]: -1 when nothing is found. *)
Fixpoint findIndex {A : Type} (p : A -> bool) (l : list A) : Z :=
  match l with
  | [] => (-1)%Z
  | x :: l' =>
    if p x then 0%Z
    else match findIndex p l' with
         | Zneg _ => (-1)%Z
         | i => (i + 1)%Z
         end
  end.

(** [cycleSortOption]: the value given to [setSortBy]. *)
Definition cycleSortOption (sortBy : SortOption) : SortOption :=
  let currentIndex := findIndex (sortOption_eqb sortBy) sortOptions in
  let nextIndex :=
    ((currentIndex + 1) mod Z.of_nat (length sortOptions))%Z in
  nth (Z.to_nat nextIndex) sortOptions sortBy.

Section Listing.
Context {P : Platform}.

(** [a.portuguese.localeCompare(b.portuguese)]: the collation of the
    platform, negative, zero or positive. *)
Variable localeCompare : jsstring -> jsstring -> Z.

(** The predicate of the filter. *)
Definition matchesQuery (searchQuery : jsstring) (word : Word) : bool :=
  Quiz.includes (toLowerCase searchQuery) (toLowerCase (portuguese word))
  || Quiz.includes (toLowerCase searchQuery) (toLowerCase (french word)).

(** The comparator of the sort. *)
Definition compareWords (sortBy : SortOption) (a b : Word) : Z :=
  match sortBy with
  | newest => (createdAt b - createdAt a)%Z
  | oldest => (createdAt a - createdAt b)%Z
  | alphabetical => localeCompare (portuguese a) (portuguese b)
  end.

Definition filteredAndSortedWords (words : list Word)
  (searchQuery : jsstring) (sortBy : SortOption) : list Word :=
  sort (compareWords sortBy) (List.filter (matchesQuery searchQuery) words).

End Listing.
End WordList.

Module Context.
Import Vocabulary.

Record VocabularyState := {
  words : list Word;
  isLoading : bool;
  error : option jsstring
}.

Inductive VocabularyAction :=
| SET_WORDS (payload : list Word)
| ADD_WORD (payload : Word)
| UPDATE_WORD (payload : Word)
| DELETE_WORD (payload : jsstring)
| SET_LOADING (payload : bool)
| SET_ERROR (payload : option jsstring).

Definition initialState : VocabularyState :=
  {| words := []; isLoading := true; error := None |}.

Definition vocabularyReducer (state : VocabularyState)
  (action : VocabularyAction) : VocabularyState :=
  match action with
  | SET_WORDS payload =>
    {| words := payload; isLoading := false; error := error state |}
  | SET_LOADING payload =>
    {| words := words state; isLoading := payload; error := error state |}
  | SET_ERROR payload =>
    {| words := words state; isLoading := false; error := payload |}
  | _ => state
  end.

(** The argument of [firebaseService.addWord]: a word without its id. *)
Record NewWord := {
  newPortuguese : jsstring;
  newFrench : jsstring;
  newExamples : list jsstring;
  newCreatedAt : Z;
  newUpdatedAt : Z
}.

(** [addWord] of the context; [now1] and [now2] are the two readings of
    [Date.now()]. *)
Definition addWord (portuguese french : jsstring) (examples : list jsstring)
  (now1 now2 : Z) : NewWord :=
  {| newPortuguese := trim portuguese;
     newFrench := trim french;
     newExamples :=
       List.filter (fun e => negb (str_eqb (trim e) [])) examples;
     newCreatedAt := now1;
     newUpdatedAt := now2 |}.

End Context.

Module AddScreen.

(** [examples.filter((_, i) => i !== index)] *)
Fixpoint removeAt (index : nat) (examples : list jsstring)
  : list jsstring :=
  match examples, index with
  | [], _ => []
  | _ :: rest, O => rest
  | e :: rest, S index' => e :: removeAt index' rest
  end.

Definition addExampleField (examples : list jsstring) : list jsstring :=
  examples ++ [[]].

Definition removeExample (index : nat) (examples : list jsstring)
  : list jsstring :=
  if (1 <? length examples)%nat then removeAt index examples else [[]].

(** How [handleSave] ends: one of its alerts, or [router.back()]. *)
Inductive SaveOutcome :=
| MissingPortuguese   (* 'Veuillez entrer le mot en portugais' *)
| MissingFrench       (* 'Veuillez entrer la traduction en français' *)
| SaveFailed          (* 'Échec de l'enregistrement du mot' *)
| WentBack.           (* router.back() *)

(** [handleSave].  [storeFails] tells whether [firebaseService.addWord]
    rejects.  The result is the word that the store is called with, if it
    is called, and how the handler ends. *)
Definition handleSave (portuguese french : jsstring)
  (examples : list jsstring) (storeFails : bool) (now1 now2 : Z)
  : option Context.NewWord * SaveOutcome :=
  match trim portuguese with
  | [] => (None, MissingPortuguese)
  | _ :: _ =>
    match trim french with
    | [] => (None, MissingFrench)
    | _ :: _ =>
      (Some (Context.addWord portuguese french examples now1 now2),
       if storeFails then SaveFailed else WentBack)
    end
  end.

End AddScreen.

(* ===================================================================== *)
(** * Properties *)
(* ===================================================================== *)

(** ** The Latin-1 platform *)

Module Latin1Platform.
Import Latin1.

Lemma lower_ascii (s : jsstring) :
  forallb isAscii s = true -> map lowerUnit s = map asciiLower s.
Proof.
  induction s as [|c s IH]; simpl; [reflexivity|].
  intros Hall. apply andb_true_iff in Hall as [Hc Hs].
  rewrite (IH Hs). f_equal.
  unfold lowerUnit, asciiLower, isAscii in *.
  apply N.ltb_lt in Hc.
  destruct ((65 <=? c) && (c <=? 90)); [reflexivity|].
  replace (192 <=? c) with false; [reflexivity|].
  symmetry. apply N.leb_gt. lia.
Qed.

(** The built-ins restricted to strings of Basic Latin and Latin-1
    Supplement code units; every example below stays in that range. *)
Definition latin1 : Platform := {|
  toLowerCase := map lowerUnit;
  normalizeNFD := nfd;
  canonicalize := upperUnit;
  toLowerCase_ascii := lower_ascii;
  normalizeNFD_empty := eq_refl
|}.

End Latin1Platform.
Export Latin1Platform.

(** ** Strings *)

Example js_code_units :
  js "avião" = [97; 118; 105; 227; 111] /\ js "l'" = [108; 39]
  /\ length (js "é") = 1%nat.
Proof. repeat split. Qed.

Example trim_both_ends :
  trim (js "  le chien  ") = js "le chien" /\ trim (js "   ") = [].
Proof. repeat split. Qed.

Example split_slashes :
  split (js "/") (js "a/b//c/") = [js "a"; js "b"; []; js "c"; []]
  /\ split (js "/") [] = [[]]
  /\ join (js "-") (split (js "/") (js "a/b//c/")) = js "a-b--c-".
Proof. repeat split. Qed.

Example sortedArticles_order :
  sortedArticles
  = map js [ "de la"; "de l'"; "umas"; "uma"; "uns"; "les"; "une"; "des";
             "os"; "as"; "um"; "le"; "la"; "l'"; "un"; "du"; "o"; "a" ].
Proof. reflexivity. Qed.

Example removeAccents_latin1 :
  @removeAccents latin1 (js "À É î õ ü ç ÿ") = js "A E i o u c y".
Proof. vm_compute. reflexivity. Qed.

Lemma str_eqb_eq (a b : jsstring) : str_eqb a b = true <-> a = b.
Proof.
  revert b. induction a as [|x a IH]; intros [|y b]; simpl;
    try (split; [discriminate | congruence]); [tauto|].
  rewrite andb_true_iff, N.eqb_eq, IH. split.
  - intros [-> ->]. reflexivity.
  - intros [= -> ->]. auto.
Qed.

Lemma str_eqb_refl (a : jsstring) : str_eqb a a = true.
Proof. apply str_eqb_eq. reflexivity. Qed.

Lemma str_eqb_nil_r (a : jsstring) : str_eqb a [] = true <-> a = [].
Proof. apply str_eqb_eq. Qed.

(** ** The stable sort by descending length *)

Section SortFacts.
Context {A : Type} (key : A -> nat) (cmp : A -> A -> Z).
Hypothesis cmp_key :
  forall a b, cmp a b = (Z.of_nat (key b) - Z.of_nat (key a))%Z.

Definition keyDescending (a b : A) : Prop := (key b <= key a)%nat.

Lemma sort_insert_perm (x : A) (l : list A) :
  Permutation (x :: l) (sort_insert cmp x l).
Proof.
  induction l as [|y l IH]; simpl; [reflexivity|].
  destruct (cmp x y <=? 0)%Z; [reflexivity|].
  rewrite perm_swap. apply perm_skip, IH.
Qed.

Lemma sort_perm (l : list A) : Permutation l (sort cmp l).
Proof.
  induction l as [|x l IH]; simpl; [reflexivity|].
  rewrite <- sort_insert_perm. apply perm_skip, IH.
Qed.

Lemma sort_insert_sorted (x : A) (l : list A) :
  StronglySorted keyDescending l ->
  StronglySorted keyDescending (sort_insert cmp x l).
Proof.
  induction 1 as [|y l Hs IH Hy]; simpl.
  - constructor; constructor.
  - destruct (cmp x y <=? 0)%Z eqn:E.
    + apply Z.leb_le in E. rewrite cmp_key in E.
      constructor; [constructor; assumption|].
      constructor; [unfold keyDescending; lia|].
      eapply Forall_impl; [exact Hy|].
      unfold keyDescending. intros z Hz. lia.
    + apply Z.leb_gt in E. rewrite cmp_key in E.
      constructor; [exact IH|].
      rewrite <- sort_insert_perm.
      constructor; [unfold keyDescending; lia | exact Hy].
Qed.

Lemma sort_sorted (l : list A) : StronglySorted keyDescending (sort cmp l).
Proof.
  induction l as [|x l IH]; simpl; [constructor|].
  apply sort_insert_sorted, IH.
Qed.

End SortFacts.

Lemma sortedArticles_sorted :
  StronglySorted (keyDescending (@length N)) sortedArticles.
Proof. apply sort_sorted. reflexivity. Qed.

Lemma sortedArticles_perm : Permutation ARTICLES sortedArticles.
Proof. apply sort_perm. Qed.

(** ** learn.tsx *)

Section MatcherFacts.
Context {P : Platform}.

Lemma singleAnswerMatches_iff (a b : jsstring) :
  singleAnswerMatches a b = true <->
  toLowerCase (trim a) = toLowerCase (trim b)
  \/ removeAccents (toLowerCase (trim a)) = removeAccents (toLowerCase (trim b))
  \/ normalizeForComparison a = normalizeForComparison b
  \/ removeAccents (normalizeForComparison a)
     = removeAccents (normalizeForComparison b).
Proof.
  unfold singleAnswerMatches.
  repeat match goal with
  | |- context [str_eqb ?x ?y] =>
    let E := fresh "E" in
    destruct (str_eqb x y) eqn:E;
    [apply str_eqb_eq in E; tauto|]
  end.
  split; [discriminate|].
  intros Hor.
  repeat match goal with
  | E : str_eqb ?x ?y = false |- _ =>
    assert (x <> y) by (intros Heq; apply str_eqb_eq in Heq; congruence);
    clear E
  end.
  tauto.
Qed.

Lemma answersMatch_iff (u c : jsstring) :
  answersMatch u c = true <->
  exists v, In v (validAnswers c) /\ singleAnswerMatches u v = true.
Proof. unfold answersMatch. apply existsb_exists. Qed.


Lemma toLowerCase_empty : toLowerCase [] = [].
Proof. apply (toLowerCase_ascii []). reflexivity. Qed.


(** On a text whose trimmed form is ASCII, lower-casing is the ASCII one. *)
Lemma normalizeForComparison_ascii (text : jsstring) :
  forallb isAscii (trim text) = true ->
  normalizeForComparison text
  = trim (replaceElision
            (fold_left stripArticle sortedArticles
                       (map asciiLower (trim text)))).
Proof.
  intros Hascii. unfold normalizeForComparison.
  rewrite (toLowerCase_ascii _ Hascii). reflexivity.
Qed.







(** Every article, taken alone, normalizes to the empty string and is its
    own single variant. *)
Definition articleAlone (a : jsstring) : bool :=
  forallb isAscii (trim a)
  && str_eqb (trim (replaceElision
                      (fold_left stripArticle sortedArticles
                                 (map asciiLower (trim a))))) []
  && match validAnswers a with
     | [v] => str_eqb v a
     | _ => false
     end.

Lemma articles_alone (a : jsstring) :
  In a ARTICLES ->
  normalizeForComparison a = [] /\ validAnswers a = [a].
Proof.
  intros Hin.
  assert (Hall : forallb articleAlone ARTICLES = true)
    by (vm_compute; reflexivity).
  rewrite forallb_forall in Hall. specialize (Hall a Hin).
  unfold articleAlone in Hall.
  apply andb_true_iff in Hall as [Hall Hv].
  apply andb_true_iff in Hall as [Hascii Hnorm].
  split.
  - rewrite (normalizeForComparison_ascii _ Hascii).
    apply str_eqb_eq, Hnorm.
  - destruct (validAnswers a) as [|v [|? ?]]; try discriminate.
    apply str_eqb_eq in Hv. congruence.
Qed.

End MatcherFacts.

(** Claim C1.  [answersMatch u c] splits the correct answer [c] on the
    slash into trimmed variants and is true exactly when the user answer
    [u] matches one of them.  In particular "casa" and "maison" match
    "maison / casa", and "voiture" does not. *)
Theorem answersMatch_any_variant :
  (forall (P : Platform) (u c : jsstring),
     validAnswers c = map trim (split (js "/") c)
     /\ (answersMatch u c = true <->
         exists v, In v (validAnswers c) /\ singleAnswerMatches u v = true))
  /\ validAnswers (js "maison / casa") = [js "maison"; js "casa"]
  /\ @answersMatch latin1 (js "casa") (js "maison / casa") = true
  /\ @answersMatch latin1 (js "maison") (js "maison / casa") = true
  /\ @answersMatch latin1 (js "voiture") (js "maison / casa") = false.
Proof.
  split; [|repeat split; vm_compute; reflexivity].
  intros P u c. split; [reflexivity | apply answersMatch_iff].
Qed.

(** Claim C2.  [singleAnswerMatches a b] is true exactly when one of four
    equalities holds between the trimmed, lower-cased answers: as they are,
    after accent folding, after article normalization, or after both.  Hence
    the accent, article and case examples of the specification all match. *)
Theorem singleAnswerMatches_four_equalities :
  (forall (P : Platform) (a b : jsstring),
     singleAnswerMatches a b = true <->
     toLowerCase (trim a) = toLowerCase (trim b)
     \/ removeAccents (toLowerCase (trim a))
        = removeAccents (toLowerCase (trim b))
     \/ normalizeForComparison a = normalizeForComparison b
     \/ removeAccents (normalizeForComparison a)
        = removeAccents (normalizeForComparison b))
  /\ Forall (fun '(u, c) =>
               @singleAnswerMatches latin1 (js u) (js c) = true
               /\ @answersMatch latin1 (js u) (js c) = true)
       [ ("avião", "aviao"); ("aviao", "avião"); ("chien", "le chien");
         ("casa", "a casa"); ("obligation", "l'obligation");
         ("CASA", "casa") ].
Proof.
  split; [intros P a b; apply singleAnswerMatches_iff|].
  repeat constructor; vm_compute; reflexivity.
Qed.



(** Claim C6.  The articles are tried in descending length, so that "de la"
    comes before "la": "de la maison" loses "de la" as a whole and
    normalizes to "maison".  Hence "la" does not match "de la maison", and
    "maison" does. *)
Theorem longest_article_first :
  StronglySorted (fun a b : jsstring => (length b <= length a)%nat)
                 sortedArticles
  /\ Permutation ARTICLES sortedArticles
  /\ (exists before after,
        sortedArticles = before ++ js "de la" :: after
        /\ In (js "la") after)
  /\ @normalizeTrace latin1 (js "de la maison")
     = ([BeforeSpace (js "de la")], js "maison")
  /\ @answersMatch latin1 (js "la") (js "de la maison") = false
  /\ @answersMatch latin1 (js "maison") (js "de la maison") = true.
Proof.
  split; [exact sortedArticles_sorted|].
  split; [exact sortedArticles_perm|].
  split.
  - exists [], (tail sortedArticles). split; [reflexivity|].
    vm_compute. tauto.
  - repeat split; vm_compute; reflexivity.
Qed.




(** Claim C10.  A user answer and a correct answer that are each one
    article, not necessarily the same, match: both normalize to the empty
    string, and the article-insensitive equality holds. *)
Theorem lone_articles_match (P : Platform) (a b : jsstring) :
  In a ARTICLES -> In b ARTICLES ->
  normalizeForComparison a = [] /\ normalizeForComparison b = []
  /\ singleAnswerMatches a b = true /\ answersMatch a b = true.
Proof.
  intros Ha Hb.
  destruct (articles_alone a Ha) as [Hna _].
  destruct (articles_alone b Hb) as [Hnb Hvb].
  assert (Hsingle : singleAnswerMatches a b = true).
  { apply singleAnswerMatches_iff. right. right. left. congruence. }
  repeat split; try assumption.
  apply answersMatch_iff. exists b. split; [|exact Hsingle].
  rewrite Hvb. left. reflexivity.
Qed.

Lemma lone_articles_match_witness :
  @normalizeForComparison latin1 (js "le") = []
  /\ @normalizeForComparison latin1 (js "a") = []
  /\ @singleAnswerMatches latin1 (js "le") (js "a") = true
  /\ @answersMatch latin1 (js "le") (js "a") = true.
Proof.
  apply (@lone_articles_match latin1 (js "le") (js "a"));
    vm_compute; tauto.
Defined.

(** ** read.tsx *)

Import Read.

(** The escaping is complete: the pattern built from escaped phrases reads
    back as these phrases, taken literally. *)
Lemma readAlternatives_escape (phrase rest cur : jsstring) :
  readAlternatives (escapeRegExp phrase ++ rest) cur
  = readAlternatives rest (cur ++ phrase).
Proof.
  revert cur. induction phrase as [|c phrase IH]; intros cur.
  - simpl. rewrite app_nil_r. reflexivity.
  - unfold escapeRegExp in *. cbn [flat_map].
    replace (cur ++ c :: phrase) with ((cur ++ [c]) ++ phrase)
      by (rewrite <- app_assoc; reflexivity).
    rewrite <- IH.
    destruct (isRegExpSpecial c) eqn:Hspecial.
    + cbn [app readAlternatives N.eqb Pos.eqb]. rewrite Hspecial.
      reflexivity.
    + cbn [app readAlternatives]. rewrite Hspecial.
      assert (Hne : (c =? 92) = false /\ (c =? 124) = false
                    /\ (c =? 41) = false).
      { repeat split; apply N.eqb_neq; intros ->; vm_compute in Hspecial;
          discriminate. }
      destruct Hne as (-> & -> & ->). reflexivity.
Qed.

Lemma readAlternatives_bar (rest cur : jsstring) :
  readAlternatives (js "|" ++ rest) cur
  = match readAlternatives rest [] with
    | Some alts => Some (cur :: alts)
    | None => None
    end.
Proof. reflexivity. Qed.

Lemma join_cons (sep p q : jsstring) (rest : list jsstring) :
  join sep (p :: q :: rest) = p ++ sep ++ join sep (q :: rest).
Proof. reflexivity. Qed.

Lemma readAlternatives_join (w : UsedWord) (ws : list UsedWord) :
  readAlternatives
    (join (js "|") (map (fun w => escapeRegExp (portuguese w)) (w :: ws))
     ++ js ")") []
  = Some (map portuguese (w :: ws)).
Proof.
  revert w. induction ws as [|w' ws IH]; intros w.
  - cbn [map join]. rewrite readAlternatives_escape. reflexivity.
  - specialize (IH w'). cbn [map] in *.
    rewrite join_cons, <- !app_assoc, readAlternatives_escape.
    rewrite readAlternatives_bar, IH. reflexivity.
Qed.

Lemma compile_patternSource (w : UsedWord) (ws : list UsedWord) :
  compileRegExp (patternSource (w :: ws)) = Some (map portuguese (w :: ws)).
Proof.
  unfold patternSource. change (js "(") with [40].
  cbn [app compileRegExp]. apply readAlternatives_join.
Qed.

Lemma StronglySorted_map {A B : Type} (f : A -> B) (R : B -> B -> Prop)
  (l : list A) :
  StronglySorted (fun a b => R (f a) (f b)) l ->
  StronglySorted R (map f l).
Proof.
  induction 1 as [|x l Hs IH Hx]; cbn [map]; constructor; [exact IH|].
  rewrite Forall_map. exact Hx.
Qed.

Lemma highlightPattern_sorted (usedWords : list UsedWord) :
  highlightPattern usedWords
  = match usedWords with
    | [] => None
    | _ :: _ => Some (map portuguese (sort byPortugueseLengthDesc usedWords))
    end.
Proof.
  destruct usedWords as [|w ws]; [reflexivity|].
  unfold highlightPattern.
  pose proof (sort_perm byPortugueseLengthDesc (w :: ws)) as Hperm.
  destruct (sort byPortugueseLengthDesc (w :: ws)) as [|w' ws'] eqn:Hsort.
  - apply Permutation_sym, Permutation_nil in Hperm. discriminate.
  - apply compile_patternSource.
Qed.

Section HighlightFacts.
Context {P : Platform}.

(** The pieces of the split, put together again, are the text. *)
Lemma splitLoop_concat (alts : list jsstring) (acc s : jsstring) :
  concat (splitLoop alts acc s) = acc ++ s.
Proof.
  funelim (splitLoop alts acc s).
  - reflexivity.
  - cbn [concat]. rewrite H. cbn [take app].
    rewrite take_drop. reflexivity.
  - rewrite H, <- app_assoc. reflexivity.
  - rewrite H. reflexivity.
  - cbn [concat]. rewrite H. reflexivity.
Qed.

Lemma regexSplit_concat (alts : list jsstring) (s : jsstring) :
  concat (regexSplit alts s) = s.
Proof.
  destruct s as [|c s]; simpl.
  - destruct (matchAt alts []); reflexivity.
  - apply splitLoop_concat.
Qed.

(** The first alternative that matches is one of the longest that match,
    when the alternatives are in descending length. *)
Lemma matchAt_longest (alts : list jsstring) (s : jsstring) (k : nat) :
  StronglySorted (fun a b : jsstring => (length b <= length a)%nat) alts ->
  matchAt alts s = Some k ->
  (exists alt, In alt alts /\ matchesAt alt s = true /\ length alt = k)
  /\ (forall alt, In alt alts -> matchesAt alt s = true ->
                  (length alt <= k)%nat).
Proof.
  unfold matchAt. intros Hsorted.
  induction Hsorted as [|a alts Hs IH Ha]; simpl; [discriminate|].
  destruct (matchesAt a s) eqn:Hm.
  - intros [= <-]. split.
    + exists a. auto.
    + intros alt [<- | Hin] _; [lia|].
      rewrite Forall_forall in Ha. apply Ha, list_elem_of_In, Hin.
  - intros Hk. destruct (IH Hk) as [[alt (Hin & Halt & Hlen)] Hmax]. split.
    + exists alt. auto.
    + intros alt' [<- | Hin'] Hm'; [congruence | auto].
Qed.

End HighlightFacts.

(** Claim C3.  For every story and every list of used words, the pieces of
    the highlight segmentation, concatenated in order, are the story: the
    split by the alternation pattern keeps the matched text and loses or
    reorders no code unit. *)
Theorem highlight_segments_roundtrip :
  forall (P : Platform) (story : jsstring) (usedWords : list UsedWord),
    (forall pattern, concat (regexSplit pattern story) = story)
    /\ concat (map segmentText (renderStoryWithHighlights story usedWords))
       = story.
Proof.
  intros P story usedWords. split; [intros; apply regexSplit_concat|].
  unfold renderStoryWithHighlights.
  destruct story as [|c story].
  - destruct (highlightPattern usedWords); simpl; reflexivity.
  - destruct (highlightPattern usedWords) as [pattern|];
      [|simpl; rewrite app_nil_r; reflexivity].
    rewrite <- (regexSplit_concat pattern (c :: story)) at 2.
    f_equal. rewrite map_map. rewrite <- (map_id (regexSplit _ _)) at 2.
    apply map_ext. intros part.
    destruct (findMatchedWord usedWords part); reflexivity.
Qed.

(** Claim C4.  The alternation pattern holds the phrases of the used words
    in descending length, so the alternative that decides a match at a
    position is a longest phrase matching there.  With the words "casa" and
    "casa grande", the story "a casa grande é bonita" is cut into "a ",
    the highlighted "casa grande" and " é bonita"; tried in the order of the
    vocabulary instead, the alternatives would cut out "casa" and leave
    " grande é bonita". *)
Theorem longest_phrase_preferred :
  (forall (P : Platform) (usedWords : list UsedWord) (pattern : list jsstring),
     highlightPattern usedWords = Some pattern ->
     Permutation (map portuguese usedWords) pattern
     /\ StronglySorted (fun a b : jsstring => (length b <= length a)%nat)
                       pattern
     /\ forall (s : jsstring) (k : nat),
          matchAt pattern s = Some k ->
          (exists phrase, In phrase (map portuguese usedWords)
                          /\ matchesAt phrase s = true /\ length phrase = k)
          /\ (forall phrase, In phrase (map portuguese usedWords) ->
                             matchesAt phrase s = true ->
                             (length phrase <= k)%nat))
  /\ (forall maison grandeMaison : jsstring,
        let casa := {| portuguese := js "casa"; french := maison |} in
        let casaGrande :=
          {| portuguese := js "casa grande"; french := grandeMaison |} in
        highlightPattern [casa; casaGrande]
        = Some [js "casa grande"; js "casa"]
        /\ @renderStoryWithHighlights latin1 (js "a casa grande é bonita")
             [casa; casaGrande]
           = [ Plain (js "a "); Highlighted (js "casa grande") casaGrande;
               Plain (js " é bonita") ])
  /\ @regexSplit latin1 [js "casa"; js "casa grande"]
       (js "a casa grande é bonita")
     = [js "a "; js "casa"; js " grande é bonita"].
Proof.
  split; [|split; [intros; split|]; vm_compute; reflexivity].
  intros P usedWords pattern Hpattern.
  rewrite highlightPattern_sorted in Hpattern.
  destruct usedWords as [|w ws]; [discriminate|].
  injection Hpattern as <-.
  assert (Hperm : Permutation (map portuguese (w :: ws))
                    (map portuguese (sort byPortugueseLengthDesc (w :: ws)))).
  { apply Permutation_map, sort_perm. }
  assert (Hsorted :
            StronglySorted (fun a b : jsstring => (length b <= length a)%nat)
              (map portuguese (sort byPortugueseLengthDesc (w :: ws)))).
  { pose proof (sort_sorted (fun w => length (portuguese w))
                  byPortugueseLengthDesc (fun a b => eq_refl) (w :: ws))
      as Hs.
    exact (StronglySorted_map portuguese
             (fun a b : jsstring => (length b <= length a)%nat) _ Hs). }
  split; [exact Hperm|]. split; [exact Hsorted|].
  intros s k Hk.
  destruct (matchAt_longest _ s k Hsorted Hk) as [[alt (Hin & Hm & Hlen)] Hmax].
  split.
  - exists alt. repeat split; try assumption.
    eapply Permutation_in; [symmetry; exact Hperm | exact Hin].
  - intros phrase Hin' Hm'. apply Hmax; [|exact Hm'].
    eapply Permutation_in; [exact Hperm | exact Hin'].
Qed.

(** ** gemini.ts *)

Module GeminiFacts.
Import Gemini.
Local Open Scope Z_scope.

(** Up to a hundred words the binary64 product has the floor of the exact
    product: by evaluation. *)
Lemma floorTimes03_small (n : nat) :
  (n <= 100)%nat -> floorTimes03 (Z.of_nat n) = 3 * Z.of_nat n / 10.
Proof.
  intros Hn.
  assert (Hall : forallb (fun k => floorTimes03 (Z.of_nat k)
                                   =? 3 * Z.of_nat k / 10)
                         (seq 0 101) = true) by (vm_compute; reflexivity).
  rewrite forallb_forall in Hall.
  apply Z.eqb_eq, Hall, in_seq. lia.
Qed.

Lemma roundNearestEven_lower (P e : Z) : P / 2 ^ e <= roundNearestEven P e.
Proof.
  unfold roundNearestEven.
  repeat match goal with |- context [if ?b then _ else _] => destruct b end;
    lia.
Qed.

(** From 84 words on the rounded product is at least 25: rounding to nearest
    does not go below the 53 leading bits of the exact product. *)
Lemma floorTimes03_large (n : Z) : 84 <= n -> 25 <= floorTimes03 n.
Proof.
  intros Hn. unfold floorTimes03.
  set (P := n * mantissa03).
  assert (HP : 25 * 2 ^ 54 <= P) by (unfold P, mantissa03; lia).
  assert (Hpos : 0 < P) by lia.
  destruct (P <=? 0) eqn:E; [apply Z.leb_le in E; lia|]. clear E.
  assert (Hlog : 58 <= Z.log2 P).
  { apply Z.log2_le_pow2; [exact Hpos|]. lia. }
  set (e := Z.log2 P - 52).
  assert (He : 6 <= e) by (unfold e; lia).
  destruct (e <=? 0) eqn:E; [apply Z.leb_le in E; lia|]. clear E.
  rewrite Z.max_l by lia.
  pose proof (roundNearestEven_lower P e) as Hround.
  destruct (54 <=? e) eqn:E.
  - apply Z.leb_le in E.
    assert (Hq : 2 ^ 52 <= P / 2 ^ e).
    { apply Z.div_le_lower_bound; [lia|].
      rewrite <- Z.pow_add_r by lia.
      replace (e + 52) with (Z.log2 P) by (unfold e; lia).
      apply Z.log2_spec, Hpos. }
    assert (Hpow : 1 <= 2 ^ (e - 54))
      by (apply Z.pow_le_mono_r with (b := 0); lia).
    change (2 ^ 52) with 4503599627370496 in Hq. nia.
  - apply Z.leb_gt in E.
    transitivity (P / 2 ^ e / 2 ^ (54 - e)).
    + rewrite Z.div_div by lia.
      rewrite <- Z.pow_add_r by lia.
      replace (e + (54 - e)) with 54 by lia.
      apply Z.div_le_lower_bound; lia.
    + apply Z.div_le_mono; lia.
Qed.

(** The end of the slice is the clamped floor of three tenths of the number
    of words. *)
Lemma sliceEnd_floor (n : nat) :
  sliceEnd n = Z.to_nat (Z.min 25 (Z.max 15 (3 * Z.of_nat n / 10))).
Proof.
  unfold sliceEnd. destruct (le_gt_dec n 100) as [Hle | Hgt].
  - rewrite (floorTimes03_small n Hle). reflexivity.
  - pose proof (floorTimes03_large (Z.of_nat n)) as Hlarge.
    assert (30 <= 3 * Z.of_nat n / 10) by (apply Z.div_le_lower_bound; lia).
    f_equal. lia.
Qed.

Lemma selectedWords_length {A : Type} (words shuffled : list A) :
  Permutation words shuffled ->
  Z.of_nat (length (selectedWords words shuffled))
  = Z.min (Z.of_nat (length words))
          (Z.min 25 (Z.max 15 (3 * Z.of_nat (length words) / 10))).
Proof.
  intros Hperm. unfold selectedWords.
  rewrite length_take, sliceEnd_floor, <- (Permutation_length Hperm).
  lia.
Qed.

End GeminiFacts.

(** Claim C8, as the code has it.  For a vocabulary of N words the story
    takes the first [clamp(floor(0.3 * N), 15, 25)] words of the shuffled
    vocabulary, capped at N; the selected words are words of the vocabulary.
    The size is 15 for N = 40, 25 for N = 100 and 12 for N = 12. *)
Theorem selection_size_floor :
  forall (A : Type) (words shuffled : list A),
    Permutation words shuffled ->
    let N := Z.of_nat (length words) in
    Z.of_nat (length (Gemini.selectedWords words shuffled))
    = Z.min N (Z.min 25 (Z.max 15 (3 * N / 10)))
    /\ (forall w, In w (Gemini.selectedWords words shuffled) -> In w words)
    /\ (length words = 40%nat ->
        length (Gemini.selectedWords words shuffled) = 15%nat)
    /\ (length words = 100%nat ->
        length (Gemini.selectedWords words shuffled) = 25%nat)
    /\ (length words = 12%nat ->
        length (Gemini.selectedWords words shuffled) = 12%nat).
Proof.
  intros A words shuffled Hperm N.
  pose proof (GeminiFacts.selectedWords_length words shuffled Hperm) as Hlen.
  fold N in Hlen. split; [exact Hlen|]. split.
  - intros w Hin. eapply Permutation_in; [symmetry; exact Hperm|].
    unfold Gemini.selectedWords in Hin.
    rewrite <- (take_drop (Gemini.sliceEnd (length words)) shuffled).
    apply in_or_app. left. exact Hin.
  - repeat split; intros HN; unfold N in Hlen; rewrite HN in Hlen;
      [ change (3 * Z.of_nat 40 / 10)%Z with 12%Z in Hlen
      | change (3 * Z.of_nat 100 / 10)%Z with 30%Z in Hlen
      | change (3 * Z.of_nat 12 / 10)%Z with 3%Z in Hlen ]; lia.
Qed.

Lemma selection_size_floor_witness :
  let words := seq 0 40 in
  let N := Z.of_nat (length words) in
  Z.of_nat (length (Gemini.selectedWords words (rev words)))
  = Z.min N (Z.min 25 (Z.max 15 (3 * N / 10)))
  /\ (forall w, In w (Gemini.selectedWords words (rev words)) -> In w words)
  /\ (length words = 40%nat ->
      length (Gemini.selectedWords words (rev words)) = 15%nat)
  /\ (length words = 100%nat ->
      length (Gemini.selectedWords words (rev words)) = 25%nat)
  /\ (length words = 12%nat ->
      length (Gemini.selectedWords words (rev words)) = 12%nat).
Proof.
  exact (selection_size_floor nat (seq 0 40) (rev (seq 0 40))
           (Permutation_rev (seq 0 40))).
Defined.

(** Claim C8 as stated fails: with 56 words, three tenths are 16.8, which
    rounds to 17, and the code selects 16 words. *)
Lemma selection_size_not_rounded :
  ~ (forall words shuffled : list nat,
       Permutation words shuffled ->
       length (Gemini.selectedWords words shuffled)
       = Gemini.specSelectionSize (length words)).
Proof.
  intros Hclaim.
  specialize (Hclaim (seq 0 56) (seq 0 56) (Permutation_refl _)).
  vm_compute in Hclaim. discriminate.
Qed.

(** ** backup.ts *)

Module BackupFacts.
Import Backup.
Local Open Scope string_scope.

Section ImportFacts.
Variable clock : nat -> Z.

Lemma timestampRepaired_mono (k0 k1 k0' k1' : nat) (old new : option json) :
  (k0' <= k0)%nat -> (k1 <= k1')%nat ->
  timestampRepaired clock k0 k1 old new ->
  timestampRepaired clock k0' k1' old new.
Proof.
  unfold timestampRepaired. intros H0 H1.
  destruct (truthy old); [tauto|].
  intros [k [Hk Hnew]]. exists k. split; [lia | exact Hnew].
Qed.

Lemma repaired_mono (k0 k1 k0' k1' : nat) (word word' : json) :
  (k0' <= k0)%nat -> (k1 <= k1')%nat ->
  repaired clock k0 k1 word word' -> repaired clock k0' k1' word word'.
Proof.
  intros H0 H1 (w & w' & -> & -> & Hex & Hc & Hu & Hrest).
  exists w, w'. repeat split; try assumption;
    eapply timestampRepaired_mono; eassumption.
Qed.

(** One timestamp: the property is kept when truthy, set from the clock
    otherwise; nothing else changes, and at most one reading is made. *)
Lemma ensureTimestamp_spec (key : string) (w : gmap string json) (k : nat) :
  exists (w' : gmap string json) (k' : nat),
    ensureTimestamp clock key w k = inr (w', k')
    /\ (k <= k' <= S k)%nat
    /\ timestampRepaired clock k k' (w !! key) (w' !! key)
    /\ forall other : string, other <> key -> w' !! other = w !! other.
Proof.
  unfold ensureTimestamp, timestampRepaired.
  destruct (truthy (w !! key)) eqn:Htruthy.
  - exists w, k. repeat split; auto.
  - exists (<[key := JNum (clock k)]> w), (S k).
    repeat split; try lia.
    + exists k. split; [lia|]. apply lookup_insert_eq.
    + intros other Hne. apply lookup_insert_ne. congruence.
Qed.

Lemma ensureExamples_spec (w : gmap string json) :
  ensureExamples w !! "examples"
  = (if isArray (w !! "examples") then w !! "examples" else Some (JArr []))
  /\ forall other : string,
       other <> "examples" -> ensureExamples w !! other = w !! other.
Proof.
  unfold ensureExamples. destruct (isArray (w !! "examples")).
  - split; auto.
  - split; [apply lookup_insert_eq|].
    intros other Hne. apply lookup_insert_ne. congruence.
Qed.

Lemma checkWord_valid (word : json) (k : nat) :
  wordValid word = true ->
  exists (word' : json) (k' : nat),
    checkWord clock word k = inr (word', k')
    /\ (k <= k')%nat /\ repaired clock k k' word word'.
Proof.
  destruct word as [| | | | |w]; try discriminate.
  cbn [wordValid]. intros Hvalid.
  apply andb_true_iff in Hvalid as [Hvalid Hfrench].
  apply andb_true_iff in Hvalid as [Hid Hportuguese].
  cbn [checkWord]. rewrite Hid, Hportuguese, Hfrench. cbn [negb orb].
  destruct (ensureExamples_spec w) as [Hex Hex'].
  destruct (ensureTimestamp_spec "createdAt" (ensureExamples w) k)
    as (w1 & k1 & E1 & Hk1 & Hc1 & Hrest1).
  destruct (ensureTimestamp_spec "updatedAt" w1 k1)
    as (w2 & k2 & E2 & Hk2 & Hc2 & Hrest2).
  exists (JObj w2), k2. unfold bind. rewrite E1, E2.
  split; [reflexivity|]. split; [lia|].
  exists w, w2. repeat split.
  - rewrite Hrest2, Hrest1 by discriminate. exact Hex.
  - rewrite Hrest2 by discriminate.
    rewrite Hex' in Hc1 by discriminate.
    eapply timestampRepaired_mono; [| |exact Hc1]; lia.
  - rewrite Hrest1, Hex' in Hc2 by discriminate.
    eapply timestampRepaired_mono; [| |exact Hc2]; lia.
  - intros key Hexamples Hcreated Hupdated.
    rewrite Hrest2, Hrest1, Hex' by assumption. reflexivity.
Qed.

Lemma checkWord_invalid (word : json) (k : nat) :
  wordValid word = false ->
  checkWord clock word k = inl InvalidWordData
  \/ word = JNull /\ checkWord clock word k = inl NullPropertyRead.
Proof.
  destruct word as [| | | | |w]; cbn [wordValid checkWord]; auto.
  intros Hinvalid. left.
  destruct (truthy (w !! "id")), (truthy (w !! "portuguese")),
    (truthy (w !! "french")); try discriminate; reflexivity.
Qed.

Lemma checkWords_valid (words : list json) (k : nat) :
  forallb wordValid words = true ->
  exists (words' : list json) (k' : nat),
    checkWords clock words k = inr (words', k')
    /\ (k <= k')%nat /\ Forall2 (repaired clock k k') words words'.
Proof.
  revert k. induction words as [|word words IH]; intros k Hvalid.
  - exists [], k. repeat split; [lia | constructor].
  - cbn [forallb] in Hvalid. apply andb_true_iff in Hvalid as [Hword Hwords].
    destruct (checkWord_valid word k Hword) as (word' & k1 & E1 & Hk1 & Hr1).
    destruct (IH k1 Hwords) as (words' & k2 & E2 & Hk2 & Hr2).
    exists (word' :: words'), k2.
    cbn [checkWords]. unfold bind. rewrite E1. fold (checkWords clock words).
    rewrite E2. split; [reflexivity|]. split; [lia|].
    constructor.
    + eapply repaired_mono; [| |exact Hr1]; lia.
    + eapply Forall2_impl; [exact Hr2|].
      intros x y Hxy. eapply repaired_mono; [| |exact Hxy]; lia.
Qed.

Lemma checkWords_invalid (words : list json) (k : nat) :
  forallb wordValid words = false ->
  exists e, checkWords clock words k = inl e
            /\ (e = InvalidWordData \/ e = NullPropertyRead).
Proof.
  revert k. induction words as [|word words IH]; intros k Hinvalid;
    [discriminate|].
  cbn [forallb] in Hinvalid. cbn [checkWords]. unfold bind.
  destruct (wordValid word) eqn:Hword.
  - destruct (checkWord_valid word k Hword) as (word' & k1 & E1 & _).
    rewrite E1. fold (checkWords clock words).
    destruct (IH k1 Hinvalid) as (e & E2 & He).
    rewrite E2. exists e. auto.
  - destruct (checkWord_invalid word k Hword) as [E | [_ E]]; rewrite E;
      eauto.
Qed.

End ImportFacts.
End BackupFacts.

(** Claim C9.  [importFromJson] throws when the parsed document has no
    [words] array, and when a word lacks a non-empty [id], [portuguese] or
    [french]; a thrown error is the whole outcome, so that no word list is
    produced.  Otherwise it returns the words, in order, each repaired:
    [examples] that is not an array becomes the empty array, a missing
    [createdAt] or [updatedAt] becomes a reading of the clock made during
    the import, and nothing else changes.  So a document without [words] is
    rejected, and a word without [examples] is accepted with [examples]
    empty. *)
Theorem importFromJson_validates :
  (forall (clock : nat -> Z) (data : Backup.json) (k : nat),
     let outcome := Backup.importFromJson clock (Backup.Picked (Some data)) k in
     match Backup.wordsArray data with
     | None =>
       outcome = inl Backup.InvalidFormat
       \/ (data = Backup.JNull /\ outcome = inl Backup.NullPropertyRead)
     | Some words =>
       if forallb Backup.wordValid words
       then exists (words' : list Backup.json) (k' : nat),
              outcome = inr (words', k') /\ (k <= k')%nat
              /\ Forall2 (Backup.repaired clock k k') words words'
       else exists e, outcome = inl e
                      /\ (e = Backup.InvalidWordData
                          \/ e = Backup.NullPropertyRead)
     end)
  /\ (forall clock k,
        Backup.importFromJson clock
          (Backup.Picked (Some (Backup.JObj
             (list_to_map [("version", Backup.JNum 1);
                           ("exportedAt", Backup.JStr "2024-01-01")])))) k
        = inl Backup.InvalidFormat)
  /\ (forall clock k,
        Backup.importFromJson clock
          (Backup.Picked (Some (Backup.JObj
             (list_to_map
                [("words",
                  Backup.JArr
                    [Backup.JObj
                       (list_to_map [("id", Backup.JStr "w1");
                                     ("portuguese", Backup.JStr "casa");
                                     ("french", Backup.JStr "maison")])])]))))
          k
        = inr ([Backup.JObj
                  (list_to_map [("id", Backup.JStr "w1");
                                ("portuguese", Backup.JStr "casa");
                                ("french", Backup.JStr "maison");
                                ("examples", Backup.JArr []);
                                ("createdAt", Backup.JNum (clock k));
                                ("updatedAt", Backup.JNum (clock (S k)))])],
               S (S k))).
Proof.
  split; [|split; intros clock k; vm_compute; reflexivity].
  intros clock data k outcome. subst outcome.
  cbn [Backup.importFromJson].
  destruct data as [| | | | |d]; cbn [Backup.wordsArray Backup.validateBackup];
    auto.
  destruct (d !! "words") as [[| | | |words|]|]; auto.
  destruct (forallb Backup.wordValid words) eqn:Hvalid.
  - apply BackupFacts.checkWords_valid, Hvalid.
  - apply BackupFacts.checkWords_invalid, Hvalid.
Qed.

(* ===================================================================== *)
(** * Further properties *)
(* ===================================================================== *)

(** ** Trimming *)

Lemma dropWhile_suffix (p : N -> bool) (s : jsstring) :
  exists pre, s = pre ++ dropWhile p s /\ forallb p pre = true.
Proof.
  induction s as [|c s IH]; simpl.
  - exists []. auto.
  - destruct (p c) eqn:Hc.
    + destruct IH as (pre & Hs & Hpre). exists (c :: pre). simpl.
      rewrite Hc, Hpre. split; [congruence | reflexivity].
    + exists []. auto.
Qed.

Lemma dropWhile_fixed (p : N -> bool) (s : jsstring) :
  match s with [] => True | c :: _ => p c = false end ->
  dropWhile p s = s.
Proof. destruct s as [|c s]; simpl; [reflexivity|]. intros ->. reflexivity. Qed.

Lemma dropWhile_head (p : N -> bool) (s : jsstring) :
  match dropWhile p s with [] => True | c :: _ => p c = false end.
Proof.
  induction s as [|c s IH]; simpl; [exact I|].
  destruct (p c) eqn:Hc; [exact IH | exact Hc].
Qed.

(** The trimmed string is what is left between a run of white space at
    the start and one at the end. *)
Lemma trim_infix (s : jsstring) :
  exists pre post,
    s = pre ++ trim s ++ post
    /\ forallb isWhiteSpace pre = true /\ forallb isWhiteSpace post = true.
Proof.
  unfold trim, trimEnd, trimStart.
  destruct (dropWhile_suffix isWhiteSpace s) as (pre & Hs & Hpre).
  destruct (dropWhile_suffix isWhiteSpace (rev (dropWhile isWhiteSpace s)))
    as (post & Hr & Hpost).
  exists pre, (rev post). repeat split; try assumption.
  - rewrite Hs at 1. f_equal.
    rewrite <- (rev_involutive (dropWhile isWhiteSpace s)) at 1.
    rewrite Hr at 1. apply rev_app_distr.
  - rewrite forallb_forall in *. intros c Hc. apply Hpost.
    apply in_rev. exact Hc.
Qed.

Lemma trimEnd_head (s : jsstring) :
  match s with [] => True | c :: _ => isWhiteSpace c = false end ->
  match trimEnd s with [] => True | c :: _ => isWhiteSpace c = false end.
Proof.
  unfold trimEnd, trimStart. intros Hhead.
  destruct (dropWhile_suffix isWhiteSpace (rev s)) as (post & Hr & _).
  assert (Hs : s = rev (dropWhile isWhiteSpace (rev s)) ++ rev post).
  { rewrite <- rev_app_distr, <- Hr, rev_involutive. reflexivity. }
  destruct (rev (dropWhile isWhiteSpace (rev s))) as [|c t]; [exact I|].
  rewrite Hs in Hhead. exact Hhead.
Qed.

Lemma trim_fixed (s : jsstring) :
  match s with [] => True | c :: _ => isWhiteSpace c = false end ->
  match rev s with [] => True | c :: _ => isWhiteSpace c = false end ->
  trim s = s.
Proof.
  intros Hhead Hlast. unfold trim, trimEnd, trimStart.
  rewrite (dropWhile_fixed _ s Hhead), (dropWhile_fixed _ (rev s) Hlast).
  apply rev_involutive.
Qed.

Lemma trim_idempotent (s : jsstring) : trim (trim s) = trim s.
Proof.
  apply trim_fixed.
  - unfold trim. apply trimEnd_head, dropWhile_head.
  - unfold trim, trimEnd. rewrite rev_involutive. apply dropWhile_head.
Qed.

Lemma split_go_not_nil (sep s cur : jsstring) (skip : nat) :
  split_go sep s cur skip <> [].
Proof.
  revert cur skip. induction s as [|c s IH]; intros cur skip; simpl;
    [discriminate|].
  destruct skip; [|apply IH].
  destruct (startsWith sep (c :: s)); [discriminate | apply IH].
Qed.

(** ** learn.tsx: more on the answer matcher *)

Section MatcherMore.
Context {P : Platform}.

Lemma normalizeForComparison_trim (text : jsstring) :
  normalizeForComparison (trim text) = normalizeForComparison text.
Proof. unfold normalizeForComparison. rewrite trim_idempotent. reflexivity. Qed.

Lemma singleAnswerMatches_sym (a b : jsstring) :
  singleAnswerMatches a b = singleAnswerMatches b a.
Proof.
  apply eq_true_iff_eq. rewrite !singleAnswerMatches_iff.
  split; intros [H | [H | [H | H]]]; auto.
Qed.

Lemma singleAnswerMatches_trim (a b : jsstring) :
  singleAnswerMatches (trim a) (trim b) = singleAnswerMatches a b.
Proof.
  apply eq_true_iff_eq. rewrite !singleAnswerMatches_iff.
  rewrite !trim_idempotent, !normalizeForComparison_trim. reflexivity.
Qed.

Lemma singleAnswerMatches_refl (a : jsstring) :
  singleAnswerMatches a a = true.
Proof. apply singleAnswerMatches_iff. left. reflexivity. Qed.

Lemma existsb_ext_eq {A : Type} (f g : A -> bool) (l : list A) :
  (forall x, f x = g x) -> existsb f l = existsb g l.
Proof.
  intros Hfg. induction l as [|x l IH]; simpl; [reflexivity|].
  rewrite Hfg, IH. reflexivity.
Qed.

Lemma answersMatch_trim_user (u c : jsstring) :
  answersMatch (trim u) c = answersMatch u c.
Proof.
  unfold answersMatch. apply existsb_ext_eq. intros v.
  rewrite <- (singleAnswerMatches_trim (trim u) v), trim_idempotent.
  apply singleAnswerMatches_trim.
Qed.

Lemma dropWhile_all (p : N -> bool) (s : jsstring) :
  forallb p s = true -> dropWhile p s = [].
Proof.
  induction s as [|c s IH]; simpl; [reflexivity|].
  intros Hall. apply andb_true_iff in Hall as [-> Hs]. apply IH, Hs.
Qed.

Lemma trim_blank (s : jsstring) :
  forallb isWhiteSpace s = true -> trim s = [].
Proof.
  intros Hall. unfold trim, trimEnd, trimStart.
  rewrite (dropWhile_all _ s Hall). reflexivity.
Qed.

(** An alternative of the correct answer, typed as it stands between the
    slashes, matches. *)
Lemma answersMatch_alternative (v c : jsstring) :
  In v (split (js "/") c) -> answersMatch v c = true.
Proof.
  intros Hin. apply answersMatch_iff. exists (trim v). split.
  - unfold validAnswers. apply in_map, Hin.
  - rewrite <- singleAnswerMatches_trim, trim_idempotent.
    rewrite singleAnswerMatches_trim. apply singleAnswerMatches_refl.
Qed.

End MatcherMore.

(** X1.  The verdict of [singleAnswerMatches] does not depend on which of the
    two strings is the user's: it is symmetric, every string matches itself,
    and white space around either string is ignored; [answersMatch] ignores
    white space around the user's answer. *)
Theorem singleAnswerMatches_symmetric_trimmed :
  forall (P : Platform) (a b : jsstring),
    singleAnswerMatches a a = true
    /\ singleAnswerMatches a b = singleAnswerMatches b a
    /\ singleAnswerMatches (trim a) (trim b) = singleAnswerMatches a b
    /\ answersMatch (trim a) b = answersMatch a b.
Proof.
  intros P a b. split; [apply singleAnswerMatches_refl|].
  split; [apply singleAnswerMatches_sym|].
  split; [apply singleAnswerMatches_trim | apply answersMatch_trim_user].
Qed.

(** X2.  In the quiz, an answer made of white space only is not graded:
    [checkAnswer] leaves the state as it is.  An answer that is one of the
    alternatives of the expected field, typed as it stands between the
    slashes and not blank, is graded, and graded correct, in both directions
    of the quiz. *)
Theorem checkAnswer_accepts_alternative :
  forall (P : Platform) (word : Vocabulary.Word) (coin : bool)
         (answer : jsstring) (st : Quiz.QuizState),
    let typed :=
      Quiz.setUserAnswer answer (Quiz.startQuiz (Some word) coin st) in
    (forallb isWhiteSpace answer = true -> Quiz.checkAnswer typed = typed)
    /\ (In answer (split (js "/")
                     (if coin then Vocabulary.french word
                      else Vocabulary.portuguese word)) ->
        trim answer <> [] ->
        Quiz.isAnswered (Quiz.checkAnswer typed) = true
        /\ Quiz.isCorrect (Quiz.checkAnswer typed) = true
        /\ Quiz.currentWord (Quiz.checkAnswer typed) = Some word).
Proof.
  intros P word coin answer st typed. subst typed.
  unfold Quiz.checkAnswer, Quiz.setUserAnswer, Quiz.startQuiz.
  cbn [Quiz.currentWord Quiz.userAnswer Quiz.showPortuguese].
  split.
  - intros Hblank. rewrite (trim_blank _ Hblank). reflexivity.
  - intros Hin Hblank.
    destruct (trim answer) as [|c t] eqn:Htrim; [contradiction|].
    cbn [Quiz.isAnswered Quiz.isCorrect Quiz.currentWord].
    repeat split. apply answersMatch_alternative, Hin.
Qed.

Lemma checkAnswer_accepts_alternative_witness :
  let word := {| Vocabulary.id := js "w1";
                 Vocabulary.portuguese := js "casa";
                 Vocabulary.french := js "maison / demeure";
                 Vocabulary.examples := [];
                 Vocabulary.createdAt := 1; Vocabulary.updatedAt := 1 |} in
  let st := {| Quiz.currentWord := None; Quiz.showPortuguese := false;
               Quiz.userAnswer := []; Quiz.isAnswered := false;
               Quiz.isCorrect := false |} in
  let typed :=
    Quiz.setUserAnswer (js " demeure")
      (Quiz.startQuiz (Some word) true st) in
  Quiz.isAnswered (@Quiz.checkAnswer latin1 typed) = true
  /\ Quiz.isCorrect (@Quiz.checkAnswer latin1 typed) = true
  /\ Quiz.currentWord (@Quiz.checkAnswer latin1 typed) = Some word.
Proof.
  refine (proj2 (@checkAnswer_accepts_alternative latin1
           {| Vocabulary.id := js "w1";
              Vocabulary.portuguese := js "casa";
              Vocabulary.french := js "maison / demeure";
              Vocabulary.examples := [];
              Vocabulary.createdAt := 1; Vocabulary.updatedAt := 1 |}
           true (js " demeure")
           {| Quiz.currentWord := None; Quiz.showPortuguese := false;
              Quiz.userAnswer := []; Quiz.isAnswered := false;
              Quiz.isCorrect := false |}) _ _).
  - vm_compute. tauto.
  - vm_compute. discriminate.
Defined.

Section NormalizeShape.
Context {P : Platform}.

Lemma matchPrefixCI_suffix (article s rest : jsstring) :
  matchPrefixCI article s = Some rest -> suffix rest s.
Proof.
  revert s. induction article as [|p article IH]; intros s; simpl.
  - intros [= ->]. reflexivity.
  - destruct s as [|c s]; [discriminate|].
    destruct (matchUnitCI p c); [|discriminate].
    intros Hrest. apply suffix_cons_r, IH, Hrest.
Qed.

Lemma dropWhile_suffix_of (p : N -> bool) (s : jsstring) :
  suffix (dropWhile p s) s.
Proof. destruct (dropWhile_suffix p s) as (pre & Hs & _). exists pre. exact Hs. Qed.

Lemma replaceArticleSpace_suffix (article s : jsstring) :
  suffix (replaceArticleSpace article s) s.
Proof.
  unfold replaceArticleSpace.
  destruct (matchPrefixCI article s) as [[|c rest]|] eqn:Hm; try reflexivity.
  destruct (isWhiteSpace c); [|reflexivity].
  apply matchPrefixCI_suffix in Hm.
  etransitivity; [|exact Hm].
  apply suffix_cons_r, dropWhile_suffix_of.
Qed.

Lemma replaceArticleAlone_suffix (article s : jsstring) :
  suffix (replaceArticleAlone article s) s.
Proof.
  unfold replaceArticleAlone.
  destruct (matchPrefixCI article s) as [[|c rest]|]; try reflexivity.
  apply suffix_nil.
Qed.

Lemma replaceElision_suffix (s : jsstring) : suffix (replaceElision s) s.
Proof.
  unfold replaceElision.
  destruct (matchPrefixCI (js "l'") s) eqn:Hm; [|reflexivity].
  apply matchPrefixCI_suffix in Hm. exact Hm.
Qed.

Lemma stripArticles_suffix (articles : list jsstring) (s : jsstring) :
  suffix (fold_left stripArticle articles s) s.
Proof.
  revert s. induction articles as [|a articles IH]; intros s; simpl;
    [reflexivity|].
  etransitivity; [apply IH|]. unfold stripArticle.
  etransitivity; [apply replaceArticleAlone_suffix|].
  apply replaceArticleSpace_suffix.
Qed.

End NormalizeShape.

(** X3.  Article normalization only cuts at the two ends: the normalized
    text stands, unchanged, inside the trimmed lower-cased text, followed
    there by white space only; and the normalized text has no white space
    at either end. *)
Theorem normalizeForComparison_cuts_ends :
  forall (P : Platform) (text : jsstring),
    (exists removed blank,
       toLowerCase (trim text) = removed ++ normalizeForComparison text ++ blank
       /\ forallb isWhiteSpace blank = true)
    /\ trim (normalizeForComparison text) = normalizeForComparison text.
Proof.
  intros P text. unfold normalizeForComparison. split.
  - set (lowered := toLowerCase (trim text)).
    set (stripped := replaceElision (fold_left stripArticle sortedArticles lowered)).
    assert (Hsuffix : suffix stripped lowered).
    { etransitivity; [apply replaceElision_suffix|].
      apply stripArticles_suffix. }
    destruct Hsuffix as [removed Hremoved].
    destruct (trim_infix stripped) as (pre & post & Hs & _ & Hpost).
    exists (removed ++ pre), post. split; [|exact Hpost].
    rewrite Hremoved, Hs at 1. rewrite <- app_assoc. reflexivity.
  - apply trim_idempotent.
Qed.

(** ** learn.tsx: accent folding *)

Module AccentFacts.
Import Accents.

(** Splitting at one code unit and joining with [plain] replaces every
    occurrence of the unit. *)
Lemma join_split_unit (a : N) (plain s cur : jsstring) :
  join plain (split_go [a] s cur O)
  = cur ++ flat_map (fun c => if a =? c then plain else [c]) s.
Proof.
  revert cur. induction s as [|c s IH]; intros cur.
  - simpl. rewrite app_nil_r. reflexivity.
  - cbn [split_go startsWith flat_map length Nat.pred].
    rewrite andb_true_r. destruct (a =? c).
    + pose proof (split_go_not_nil [a] s [] O) as Hne.
      specialize (IH []).
      destruct (split_go [a] s [] O) as [|q rest]; [contradiction|].
      rewrite join_cons, IH. reflexivity.
    + rewrite IH, <- app_assoc. reflexivity.
Qed.

(** The entries of the table, one after the other, on one code unit. *)
Definition foldUnit (table : list (N * N)) (c : N) : N :=
  fold_left (fun c '(a, p) => if a =? c then p else c) table c.

Definition lookupUnit (table : list (N * N)) (c : N) : N :=
  match find (fun ap : N * N => ap.1 =? c) table with
  | Some (_, p) => p
  | None => c
  end.

Definition accentUnits : list (N * N) :=
  map (fun kv : jsstring * jsstring => (hd 0 kv.1, hd 0 kv.2)) accentMap.

Definition asStrings (table : list (N * N)) : list (jsstring * jsstring) :=
  map (fun ap : N * N => ([ap.1], [ap.2])) table.

Lemma accentMap_units : accentMap = asStrings accentUnits.
Proof. vm_compute. reflexivity. Qed.

Lemma fold_table (table : list (N * N)) (s : jsstring) :
  fold_left (fun result '(accented, plain) => join plain (split accented result))
            (asStrings table) s
  = map (foldUnit table) s.
Proof.
  revert s. induction table as [|[a p] table IH]; intros s.
  - simpl. rewrite map_id. reflexivity.
  - cbn [asStrings map fold_left fst snd]. fold (asStrings table).
    unfold split. rewrite join_split_unit. cbn [app].
    rewrite IH. unfold foldUnit at 2. cbn [fold_left].
    fold (foldUnit table).
    induction s as [|c s IHs]; [reflexivity|].
    cbn [flat_map map]. destruct (a =? c); cbn [app map]; rewrite IHs;
      reflexivity.
Qed.

Lemma foldUnit_not_key (table : list (N * N)) (c : N) :
  (forall a p, In (a, p) table -> a <> c) -> foldUnit table c = c.
Proof.
  induction table as [|[a p] table IH]; intros Hkeys; [reflexivity|].
  unfold foldUnit. cbn [fold_left].
  destruct (a =? c) eqn:E.
  - apply N.eqb_eq in E. exfalso. apply (Hkeys a p); [left; reflexivity|exact E].
  - apply IH. intros a' p' Hin. apply (Hkeys a' p'). right. exact Hin.
Qed.

Lemma foldUnit_lookup (table : list (N * N)) (c : N) :
  (forall a p a' p', In (a, p) table -> In (a', p') table -> a' <> p) ->
  foldUnit table c = lookupUnit table c.
Proof.
  induction table as [|[a p] table IH]; intros Hdisjoint; [reflexivity|].
  unfold foldUnit, lookupUnit. cbn [fold_left find fst].
  destruct (a =? c) eqn:E.
  - apply foldUnit_not_key. intros a' p' Hin.
    apply (Hdisjoint a p a' p'); [left; reflexivity | right; exact Hin].
  - apply IH. intros a1 p1 a2 p2 H1 H2.
    apply (Hdisjoint a1 p1 a2 p2); right; assumption.
Qed.

Lemma accentUnits_disjoint (a p a' p' : N) :
  In (a, p) accentUnits -> In (a', p') accentUnits -> a' <> p.
Proof.
  assert (Hall : forallb (fun ap : N * N =>
                   forallb (fun ap' : N * N => negb (ap'.1 =? ap.2))
                           accentUnits) accentUnits = true)
    by (vm_compute; reflexivity).
  rewrite forallb_forall in Hall. intros Hin Hin'.
  specialize (Hall _ Hin). rewrite forallb_forall in Hall.
  specialize (Hall _ Hin'). cbn [fst snd] in Hall.
  apply negb_true_iff, N.eqb_neq in Hall. exact Hall.
Qed.

Lemma accentFold_lookup (c : N) : accentFold c = lookupUnit accentUnits c.
Proof.
  unfold accentFold, lookupUnit. rewrite accentMap_units.
  generalize accentUnits. intros table.
  induction table as [|[a p] table IH]; [reflexivity|].
  cbn [asStrings map find fst snd str_eqb]. fold (asStrings table).
  rewrite andb_true_r. destruct (a =? c); [reflexivity | exact IH].
Qed.

Lemma accentFold_plain (c : N) :
  isCombiningMark c = false ->
  isAccented (accentFold c) = false /\ isCombiningMark (accentFold c) = false.
Proof.
  intros Hmark. unfold accentFold.
  assert (Hvalues : forallb (fun kv : jsstring * jsstring =>
                      match kv.2 with
                      | [p] => negb (isAccented p) && negb (isCombiningMark p)
                      | _ => false
                      end) accentMap = true) by (vm_compute; reflexivity).
  rewrite forallb_forall in Hvalues.
  destruct (find (fun kv : jsstring * jsstring => str_eqb kv.1 [c]) accentMap)
    as [[k v]|] eqn:Hfind.
  - apply find_some in Hfind as [Hin _]. specialize (Hvalues _ Hin).
    cbn [snd] in Hvalues. destruct v as [|p [|? ?]]; try discriminate.
    apply andb_true_iff in Hvalues as [H1 H2].
    apply negb_true_iff in H1, H2. auto.
  - split; [|exact Hmark]. unfold isAccented.
    apply not_true_is_false. intros Hex.
    apply existsb_exists in Hex as [kv [Hin Hkv]].
    apply (find_none _ _ Hfind) in Hin. congruence.
Qed.

End AccentFacts.

(** X4.  [removeAccents] works code unit by code unit: after the
    normalization and the removal of the combining marks, it replaces each
    code unit that is a key of [accentMap] by its plain letter and keeps
    every other code unit, whatever the order of the table.  Its result
    holds no combining mark and no letter of the table. *)
Theorem removeAccents_unit_by_unit :
  forall (P : Platform) (text : jsstring),
    removeAccents text
    = map Accents.accentFold (stripCombiningMarks (normalizeNFD text))
    /\ Forall (fun c => Accents.isAccented c = false
                        /\ isCombiningMark c = false)
              (removeAccents text).
Proof.
  intros P text.
  assert (Hunits : removeAccents text
            = map Accents.accentFold
                  (stripCombiningMarks (normalizeNFD text))).
  { unfold removeAccents.
    rewrite AccentFacts.accentMap_units, AccentFacts.fold_table.
    apply map_ext. intros c.
    rewrite AccentFacts.accentFold_lookup.
    apply AccentFacts.foldUnit_lookup.
    intros a p a' p'. apply AccentFacts.accentUnits_disjoint. }
  split; [exact Hunits|]. rewrite Hunits.
  rewrite Forall_map. unfold stripCombiningMarks.
  apply Forall_forall. intros c Hc.
  apply list_elem_of_In, filter_In in Hc as [_ Hc].
  apply negb_true_iff in Hc.
  apply AccentFacts.accentFold_plain, Hc.
Qed.

(** ** learn.tsx and read.tsx: the European Portuguese voice *)

(** X5.  When the first call of [findPtPTVoice] that sees the voices returns
    an identifier, the identifier is not empty and belongs to an available
    voice that is an exact pt-PT match, or, when no voice is an exact match,
    to a voice that is Portuguese and names Portugal; the identifier is
    remembered, and every later call returns it without looking at the
    voices.  A call during which the voices cannot be read returns nothing
    and remembers nothing. *)
Theorem findPtPTVoice_sound :
  forall (P : Platform) (voices : list Quiz.Voice) (found : jsstring),
    (Quiz.findPtPTVoice None (Some voices)).1 = Some found ->
    found <> []
    /\ (exists voice,
          In voice voices /\ Quiz.identifier voice = found
          /\ (Quiz.isExactPtPT voice = true
              \/ (Quiz.isPortugalByName voice = true
                  /\ forall other, In other voices ->
                                   Quiz.isExactPtPT other = false)))
    /\ (Quiz.findPtPTVoice None (Some voices)).2 = Some found
    /\ (forall later, Quiz.findPtPTVoice (Some found) later
                      = (Some found, Some found))
    /\ Quiz.findPtPTVoice None None = (None, None).
Proof.
  intros P voices found. unfold Quiz.findPtPTVoice. cbn [fst snd].
  destruct (find Quiz.isExactPtPT voices) as [voice|] eqn:Hexact.
  - destruct (Quiz.identifier voice) as [|c t] eqn:Hid; [discriminate|].
    intros [= <-]. split; [discriminate|]. split; [|auto].
    apply find_some in Hexact as [Hin Hv]. exists voice. auto.
  - destruct (find Quiz.isPortugalByName voices) as [voice|] eqn:Hname;
      [|discriminate].
    destruct (Quiz.identifier voice) as [|c t] eqn:Hid; [discriminate|].
    intros [= <-]. split; [discriminate|]. split; [|auto].
    apply find_some in Hname as [Hin Hv]. exists voice.
    repeat split; try assumption. right. split; [exact Hv|].
    intros other Hother. apply (find_none _ _ Hexact), Hother.
Qed.

Lemma findPtPTVoice_sound_witness :
  let joana := {| Quiz.language := js "pt-PT";
                  Quiz.identifier := js "com.apple.voice.Joana";
                  Quiz.name := js "Joana" |} in
  let luciana := {| Quiz.language := js "pt-BR";
                    Quiz.identifier := js "com.apple.voice.Luciana";
                    Quiz.name := js "Luciana" |} in
  let found := js "com.apple.voice.Joana" in
  found <> []
  /\ (exists voice,
        In voice [luciana; joana] /\ Quiz.identifier voice = found
        /\ (Quiz.isExactPtPT voice = true
            \/ (@Quiz.isPortugalByName latin1 voice = true
                /\ forall other, In other [luciana; joana] ->
                                 Quiz.isExactPtPT other = false)))
  /\ (@Quiz.findPtPTVoice latin1 None (Some [luciana; joana])).2 = Some found
  /\ (forall later, @Quiz.findPtPTVoice latin1 (Some found) later
                    = (Some found, Some found))
  /\ @Quiz.findPtPTVoice latin1 None None = (None, None).
Proof.
  apply (@findPtPTVoice_sound latin1). vm_compute. reflexivity.
Defined.

(** ** read.tsx: more on the highlighting *)

Section HighlightMore.
Context {P : Platform}.

Lemma matchesAt_take (phrase s : jsstring) :
  matchesAt phrase s = true ->
  matchesAt phrase (take (length phrase) s) = true
  /\ length (take (length phrase) s) = length phrase.
Proof.
  revert s. induction phrase as [|p phrase IH]; intros s; simpl.
  - intros _. split; reflexivity.
  - destruct s as [|c s]; [discriminate|]. intros Hm.
    apply andb_true_iff in Hm as [Hc Hm].
    destruct (IH s Hm) as [IH1 IH2]. simpl. rewrite Hc, IH1, IH2. auto.
Qed.

Lemma matchAt_some (alts : list jsstring) (s : jsstring) (k : nat) :
  matchAt alts s = Some k ->
  exists alt, In alt alts /\ length alt = k /\ matchesAt alt s = true.
Proof.
  unfold matchAt.
  destruct (find (fun alt => matchesAt alt s) alts) as [alt|] eqn:Hfind;
    [|discriminate].
  intros [= <-]. apply find_some in Hfind as [Hin Hm]. exists alt. auto.
Qed.

Definition capturedMatch (alts : list jsstring) (piece : jsstring) : Prop :=
  exists alt, In alt alts /\ length alt = length piece
              /\ matchesAt alt piece = true.

Lemma splitLoop_shape (alts : list jsstring) (acc s : jsstring) :
  Nat.Odd (length (splitLoop alts acc s))
  /\ Forall (capturedMatch alts) (Pieces.capturedPieces (splitLoop alts acc s)).
Proof.
  funelim (splitLoop alts acc s).
  - split; [exists 0%nat; reflexivity | constructor].
  - destruct H as [[n Hn] Hall]. cbn [length Pieces.capturedPieces].
    split; [exists (S n); lia|]. constructor; [|exact Hall].
    destruct (matchAt_some _ _ _ Heq) as (alt & Hin & Hlen & Hm).
    destruct (matchesAt_take _ _ Hm) as [Hm' Hlen'].
    rewrite Hlen in Hm', Hlen'. exists alt. rewrite Hlen'. auto.
  - exact H.
  - exact H.
  - destruct H as [[n Hn] Hall]. cbn [length Pieces.capturedPieces].
    split; [exists (S n); lia|]. constructor; [|exact Hall].
    destruct (matchAt_some _ _ _ Heq) as (alt & Hin & Hlen & Hm).
    exists alt. destruct alt; [auto | discriminate].
Qed.

Lemma splitLoop_no_match (alts : list jsstring) (acc s : jsstring) :
  (forall before rest, s = before ++ rest -> rest <> [] ->
                       matchAt alts rest = None) ->
  splitLoop alts acc s = [acc ++ s].
Proof.
  funelim (splitLoop alts acc s); intros Hnone.
  - rewrite app_nil_r. reflexivity.
  - rewrite (Hnone [] (c :: s')) in Heq by (reflexivity || discriminate).
    discriminate.
  - rewrite H, <- app_assoc; [reflexivity|].
    intros before rest -> Hrest. apply (Hnone (c :: before)); auto.
  - rewrite (Hnone [] (c :: s')) in Heq by (reflexivity || discriminate).
    discriminate.
  - rewrite (Hnone [] (c :: s')) in Heq by (reflexivity || discriminate).
    discriminate.
Qed.

End HighlightMore.

(** X6.  For a story that is not empty, [split] with the highlight pattern
    returns an odd number of pieces; every second piece is text that the
    pattern matched, unit by unit up to case, against one of its phrases.
    When no phrase occurs anywhere in the story, the story is the only
    piece. *)
Theorem regexSplit_alternates :
  forall (P : Platform) (pattern : list jsstring) (story : jsstring),
    story <> [] ->
    Nat.Odd (length (regexSplit pattern story))
    /\ Forall (fun piece =>
                 exists phrase, In phrase pattern
                                /\ length phrase = length piece
                                /\ matchesAt phrase piece = true)
              (Pieces.capturedPieces (regexSplit pattern story))
    /\ ((forall before rest, story = before ++ rest -> rest <> [] ->
                             matchAt pattern rest = None) ->
        regexSplit pattern story = [story]).
Proof.
  intros P pattern story Hstory.
  destruct story as [|c story]; [contradiction|]. cbn [regexSplit].
  destruct (splitLoop_shape pattern [] (c :: story)) as [Hodd Hall].
  split; [exact Hodd|]. split; [exact Hall|].
  intros Hnone. apply (splitLoop_no_match pattern [] (c :: story) Hnone).
Qed.

Lemma regexSplit_alternates_witness :
  let pattern := [js "casa grande"; js "casa"] in
  let story := js "A Casa e a casa grande" in
  Nat.Odd (length (@regexSplit latin1 pattern story))
  /\ Forall (fun piece =>
               exists phrase, In phrase pattern
                              /\ length phrase = length piece
                              /\ @matchesAt latin1 phrase piece = true)
            (Pieces.capturedPieces (@regexSplit latin1 pattern story))
  /\ ((forall before rest, story = before ++ rest -> rest <> [] ->
                           @matchAt latin1 pattern rest = None) ->
      @regexSplit latin1 pattern story = [story]).
Proof.
  apply (@regexSplit_alternates latin1). vm_compute. discriminate.
Defined.

(** X7.  In the rendered story a piece is highlighted exactly when it equals,
    up to case, the phrase of a used word, and it then carries a used word
    with that phrase: a highlighted segment never shows the translation of
    a word whose phrase differs from its text. *)
Theorem highlighted_segments_resolve :
  forall (P : Platform) (story : jsstring) (usedWords : list UsedWord),
    Forall (fun segment =>
              match segment with
              | Highlighted text word =>
                In word usedWords
                /\ toLowerCase (portuguese word) = toLowerCase text
              | Plain text =>
                story = []
                \/ forall word, In word usedWords ->
                     toLowerCase (portuguese word) <> toLowerCase text
              end)
           (renderStoryWithHighlights story usedWords).
Proof.
  intros P story usedWords. unfold renderStoryWithHighlights.
  destruct story as [|c story].
  - destruct (highlightPattern usedWords); repeat constructor.
  - destruct (highlightPattern usedWords) as [pattern|] eqn:Hpattern.
    + rewrite Forall_map. apply Forall_forall. intros part _.
      unfold findMatchedWord.
      destruct (find _ usedWords) as [word|] eqn:Hfind.
      * apply find_some in Hfind as [Hin Heq].
        apply str_eqb_eq in Heq. auto.
      * right. intros word Hin Heq.
        apply (find_none _ _ Hfind) in Hin.
        rewrite Heq, str_eqb_refl in Hin. discriminate.
    + constructor; [|constructor]. right.
      destruct usedWords as [|w ws]; [intros word []|].
      rewrite highlightPattern_sorted in Hpattern. discriminate.
Qed.

(** X8.  The escaping of [highlightPattern] is complete: whatever characters
    the phrases of the used words hold, parentheses, question marks, bars
    and backslashes included, the pattern compiles, and its alternatives are
    these phrases, taken literally, in descending length.  So the phrase
    "obrigado(a)" is found in a story as it is written. *)
Theorem escaped_phrases_are_literal :
  (forall (word : UsedWord) (usedWords : list UsedWord),
     compileRegExp (patternSource (word :: usedWords))
     = Some (map portuguese (word :: usedWords))
     /\ highlightPattern (word :: usedWords)
        = Some (map portuguese
                    (sort byPortugueseLengthDesc (word :: usedWords))))
  /\ (forall merci : jsstring,
        let obrigado := {| portuguese := js "obrigado(a)"; french := merci |} in
        @renderStoryWithHighlights latin1 (js "Muito obrigado(a)!") [obrigado]
        = [ Plain (js "Muito "); Highlighted (js "obrigado(a)") obrigado;
            Plain (js "!") ]).
Proof.
  split.
  - intros word usedWords. split.
    + apply compile_patternSource.
    + apply (highlightPattern_sorted (word :: usedWords)).
  - intros merci. vm_compute. reflexivity.
Qed.

(** ** gemini.ts: the generated text *)

Module GeminiTextFacts.
Import GeminiText.

Lemma split_go_absent (a : N) (sep s cur : jsstring) :
  ~ In a s -> split_go (a :: sep) s cur O = [cur ++ s].
Proof.
  revert cur. induction s as [|c s IH]; intros cur Hin.
  - simpl. rewrite app_nil_r. reflexivity.
  - cbn [split_go startsWith].
    destruct (a =? c) eqn:E.
    + apply N.eqb_eq in E. exfalso. apply Hin. left. auto.
    + cbn [andb]. rewrite IH, <- app_assoc; [reflexivity|].
      intros Hs. apply Hin. right. exact Hs.
Qed.

Lemma split_go_unit_app (a : N) (piece rest cur : jsstring) :
  ~ In a piece ->
  split_go [a] (piece ++ a :: rest) cur O
  = (cur ++ piece) :: split_go [a] rest [] O.
Proof.
  revert cur. induction piece as [|c piece IH]; intros cur Hin.
  - cbn [app split_go startsWith length Nat.pred].
    rewrite N.eqb_refl, app_nil_r. reflexivity.
  - cbn [app split_go startsWith].
    destruct (a =? c) eqn:E.
    + apply N.eqb_eq in E. exfalso. apply Hin. left. auto.
    + cbn [andb]. rewrite IH, <- app_assoc; [reflexivity|].
      intros Hs. apply Hin. right. exact Hs.
Qed.

(** Joining with a code unit that no part holds, and splitting at it, gives
    the parts back. *)
Lemma split_join_unit (a : N) (parts : list jsstring) :
  parts <> [] -> Forall (fun part => ~ In a part) parts ->
  split [a] (join [a] parts) = parts.
Proof.
  unfold split. intros Hne Hall.
  induction Hall as [|part parts Hpart Hall IH]; [contradiction|].
  destruct parts as [|part' parts].
  - cbn [join]. rewrite split_go_absent by exact Hpart. reflexivity.
  - rewrite join_cons. cbn [app].
    rewrite split_go_unit_app by exact Hpart.
    rewrite IH by discriminate. reflexivity.
Qed.

(** No piece of a split at a code unit holds the unit. *)
Lemma split_go_unit_pieces (a : N) (s cur : jsstring) :
  ~ In a cur -> Forall (fun piece => ~ In a piece) (split_go [a] s cur O).
Proof.
  revert cur. induction s as [|c s IH]; intros cur Hcur.
  - repeat constructor. exact Hcur.
  - cbn [split_go startsWith length Nat.pred]. rewrite andb_true_r.
    destruct (a =? c) eqn:E.
    + constructor; [exact Hcur|]. apply IH. intros [].
    + apply IH. intros Hin. apply in_app_or in Hin as [Hin | [<- | []]];
        [auto|]. rewrite N.eqb_refl in E. discriminate.
Qed.

Lemma dropWhile_app_all (p : N -> bool) (pre rest : jsstring) :
  forallb p pre = true -> dropWhile p (pre ++ rest) = dropWhile p rest.
Proof.
  induction pre as [|c pre IH]; [reflexivity|]. cbn [forallb app dropWhile].
  intros Hall. apply andb_true_iff in Hall as [-> Hpre]. apply IH, Hpre.
Qed.

(** A string that trimming leaves alone and that is not empty starts and
    ends with a code unit that is no white space. *)
Lemma trim_fixed_ends (s : jsstring) :
  trim s = s -> s <> [] ->
  (exists c t, s = c :: t /\ isWhiteSpace c = false)
  /\ (exists c t, rev s = c :: t /\ isWhiteSpace c = false).
Proof.
  intros Htrim Hne. split.
  - pose proof (trimEnd_head _ (dropWhile_head isWhiteSpace s)) as Hhead.
    fold (trimStart s) in Hhead. fold (trim s) in Hhead.
    rewrite Htrim in Hhead. destruct s as [|c t]; [contradiction|].
    exists c, t. auto.
  - pose proof (dropWhile_head isWhiteSpace (rev (trimStart s))) as Hlast.
    assert (Hrev : rev s = dropWhile isWhiteSpace (rev (trimStart s))).
    { rewrite <- Htrim at 1. unfold trim, trimEnd, trimStart.
      apply rev_involutive. }
    rewrite <- Hrev in Hlast.
    destruct (rev s) as [|c t] eqn:Hs.
    + exfalso. apply Hne. rewrite <- (rev_involutive s), Hs. reflexivity.
    + exists c, t. auto.
Qed.

Lemma isDigit_not_space (c : N) : isDigit c = true -> isWhiteSpace c = false.
Proof.
  unfold isDigit, isWhiteSpace. intros Hd.
  apply andb_true_iff in Hd as [H1 H2].
  apply N.leb_le in H1, H2.
  replace (c <=? 13) with false by (symmetry; apply N.leb_gt; lia).
  replace (8192 <=? c) with false by (symmetry; apply N.leb_gt; lia).
  repeat match goal with
  | |- context [c =? ?k] =>
    replace (c =? k) with false by (symmetry; apply N.eqb_neq; lia)
  end.
  rewrite andb_false_r. reflexivity.
Qed.

Section Lines.
Variable l : NumberedLine.
Hypothesis Hl : wellFormed l.

Lemma renderLine_head :
  exists c t, renderLine l = c :: t /\ isDigit c = true.
Proof.
  destruct Hl as (Hne & Hdigits & _). unfold renderLine.
  destruct (digits l) as [|c t]; [contradiction|].
  cbn [forallb] in Hdigits. apply andb_true_iff in Hdigits as [Hc _].
  exists c, (t ++ [mark l] ++ blanks l ++ sentence l). auto.
Qed.

Lemma renderLine_last :
  exists c t, rev (renderLine l) = c :: t /\ isWhiteSpace c = false.
Proof.
  destruct Hl as (_ & _ & _ & _ & _ & Hne & Htrim & _).
  destruct (trim_fixed_ends _ Htrim Hne) as [_ (c & t & Hrev & Hc)].
  unfold renderLine. rewrite !rev_app_distr, Hrev.
  exists c, (t ++ rev (blanks l) ++ (rev [mark l] ++ rev (digits l))).
  rewrite <- !app_assoc. auto.
Qed.

Lemma renderLine_trim : trim (renderLine l) = renderLine l.
Proof.
  destruct renderLine_head as (c & t & Hhead & Hc).
  destruct renderLine_last as (c' & t' & Hlast & Hc').
  apply trim_fixed.
  - rewrite Hhead. apply isDigit_not_space, Hc.
  - rewrite Hlast. exact Hc'.
Qed.

Lemma renderLine_no_lineFeed : ~ In 10 (renderLine l).
Proof.
  destruct Hl as (_ & Hdigits & Hmark & _ & Hblanks & _ & _ & Hsentence).
  unfold renderLine. rewrite !in_app_iff. intros [H | [[H | []] | [H | H]]];
    try contradiction.
  - rewrite forallb_forall in Hdigits. specialize (Hdigits _ H).
    discriminate.
  - destruct Hmark; congruence.
Qed.

Lemma stripNumbering_renderLine :
  trim (stripNumbering (renderLine l)) = sentence l.
Proof.
  destruct renderLine_head as (c & t & Hhead & Hc).
  destruct Hl as (_ & Hdigits & Hmark & Hblanks & _ & Hne & Htrim & _).
  unfold stripNumbering. rewrite Hhead, Hc, <- Hhead.
  unfold renderLine. rewrite dropWhile_app_all by exact Hdigits.
  cbn [app dropWhile].
  assert (Hm : isDigit (mark l) = false /\ (mark l =? 46) || (mark l =? 41) = true)
    by (destruct Hmark as [-> | ->]; split; reflexivity).
  destruct Hm as [-> ->].
  rewrite dropWhile_app_all by exact Hblanks.
  destruct (trim_fixed_ends _ Htrim Hne) as [(c' & t' & Hs & Hc') _].
  rewrite dropWhile_fixed, Htrim; [reflexivity|].
  rewrite Hs. exact Hc'.
Qed.

End Lines.

Lemma nonEmpty_filter (lines : list jsstring) :
  Forall (fun line => line <> []) lines -> List.filter nonEmpty lines = lines.
Proof.
  induction 1 as [|line lines Hline Hall IH]; [reflexivity|].
  cbn [List.filter]. destruct line; [contradiction|].
  cbn [nonEmpty]. rewrite IH. reflexivity.
Qed.

End GeminiTextFacts.

Module GeminiTextMore.
Import GeminiText GeminiTextFacts.

Lemma trim_units (c : N) (s : jsstring) : In c (trim s) -> In c s.
Proof.
  destruct (trim_infix s) as (pre & post & Hs & _). intros Hin.
  rewrite Hs, !in_app_iff. auto.
Qed.

Lemma dropWhile_units (p : N -> bool) (c : N) (s : jsstring) :
  In c (dropWhile p s) -> In c s.
Proof.
  destruct (dropWhile_suffix p s) as (pre & Hs & _). intros Hin.
  rewrite Hs, in_app_iff. auto.
Qed.

Lemma stripNumbering_units (c : N) (line : jsstring) :
  In c (stripNumbering line) -> In c line.
Proof.
  unfold stripNumbering. destruct line as [|d line]; [auto|].
  destruct (isDigit d); [|auto].
  destruct (dropWhile isDigit (d :: line)) as [|m rest] eqn:Hdrop; [auto|].
  destruct ((m =? 46) || (m =? 41)); [|auto].
  intros Hin. apply (dropWhile_units isDigit). rewrite Hdrop. right.
  apply (dropWhile_units isWhiteSpace), Hin.
Qed.

Lemma join_ends (sep : jsstring) (parts : list jsstring) (p : N -> bool) :
  parts <> [] ->
  Forall (fun part => exists c t, part = c :: t /\ p c = true) parts ->
  exists c t, join sep parts = c :: t /\ p c = true.
Proof.
  intros Hne Hall. destruct Hall as [|part parts Hpart Hall]; [contradiction|].
  destruct Hpart as (c & t & -> & Hc).
  destruct parts as [|part' parts].
  - exists c, t. auto.
  - rewrite join_cons. exists c, (t ++ sep ++ join sep (part' :: parts)). auto.
Qed.

Lemma join_rev_ends (sep : jsstring) (parts : list jsstring) (p : N -> bool) :
  parts <> [] ->
  Forall (fun part => exists c t, rev part = c :: t /\ p c = true) parts ->
  exists c t, rev (join sep parts) = c :: t /\ p c = true.
Proof.
  intros Hne Hall.
  induction Hall as [|part parts Hpart Hall IH]; [contradiction|].
  destruct parts as [|part' parts].
  - exact Hpart.
  - rewrite join_cons, !rev_app_distr.
    assert (Hparts : part' :: parts <> []) by discriminate.
    destruct (IH Hparts) as (c & t & Hrev & Hc).
    rewrite Hrev. exists c, (t ++ rev sep ++ rev part).
    rewrite <- !app_assoc. auto.
Qed.

End GeminiTextMore.

(** X9.  [generateExampleSentences] throws "No response" exactly when the
    response has no text or only white space.  Otherwise every sentence it
    returns is not empty, has no white space at either end, and holds no
    line feed. *)
Theorem parseSentences_clean :
  forall text : option jsstring,
    (GeminiText.parseSentences text = inl GeminiText.NoResponse
     <-> text = None \/ exists t, text = Some t /\ trim t = [])
    /\ match GeminiText.parseSentences text with
       | inl thrown => thrown = GeminiText.NoResponse
       | inr sentences =>
         (exists t, text = Some t /\ trim t <> [])
         /\ Forall (fun s => s <> [] /\ trim s = s /\ ~ In 10 s) sentences
       end.
Proof.
  intros [t|]; cbn [GeminiText.parseSentences option_map];
    [|split; [split; auto|reflexivity]].
  destruct (trim t) as [|c generated] eqn:Htrim.
  { split; [|reflexivity]. split; [right; eauto|reflexivity]. }
  split.
  { split; [discriminate|].
    intros [Hnone | (t' & Ht' & Hblank)]; [discriminate|].
    injection Ht' as <-. rewrite Htrim in Hblank. discriminate. }
  split; [exists t; split; [reflexivity|rewrite Htrim; discriminate]|].
  apply Forall_forall. intros s Hs.
  apply list_elem_of_In, filter_In in Hs as [Hs Hne].
  apply in_map_iff in Hs as (line & <- & Hline).
  apply filter_In in Hline as [Hline _].
  apply in_map_iff in Hline as (piece & <- & Hpiece).
  split; [intros Hempty; rewrite Hempty in Hne; discriminate|].
  split; [apply trim_idempotent|].
  intros Hin.
  apply GeminiTextMore.trim_units, GeminiTextMore.stripNumbering_units,
    GeminiTextMore.trim_units in Hin.
  pose proof (GeminiTextFacts.split_go_unit_pieces 10 (c :: generated) [])
    as Hpieces.
  rewrite Forall_forall in Hpieces.
  apply (Hpieces (fun H => H) piece); [|exact Hin].
  apply list_elem_of_In. exact Hpiece.
Qed.

(** X10.  A numbered list as the prompt asks for it is read back as its
    sentences: when every line is a run of digits, a full stop or a closing
    parenthesis, blanks, and a sentence that is not empty, has no white
    space at either end and no line feed, [generateExampleSentences] returns
    the sentences, in order. *)
Theorem parseSentences_numbered_list :
  forall lines : list GeminiText.NumberedLine,
    lines <> [] ->
    Forall GeminiText.wellFormed lines ->
    GeminiText.parseSentences
      (Some (join GeminiText.lineFeed (map GeminiText.renderLine lines)))
    = inr (map GeminiText.sentence lines).
Proof.
  intros lines Hne Hall.
  set (rendered := map GeminiText.renderLine lines).
  assert (Hrendered : rendered <> []).
  { destruct lines; [contradiction | discriminate]. }
  assert (Hhead : exists c t, join GeminiText.lineFeed rendered = c :: t
                              /\ GeminiText.isDigit c = true).
  { apply GeminiTextMore.join_ends; [exact Hrendered|].
    unfold rendered. rewrite Forall_map.
    eapply Forall_impl; [exact Hall|]. intros l Hl.
    apply GeminiTextFacts.renderLine_head, Hl. }
  assert (Hlast : exists c t,
             rev (join GeminiText.lineFeed rendered) = c :: t
             /\ negb (isWhiteSpace c) = true).
  { apply (GeminiTextMore.join_rev_ends _ _ (fun c => negb (isWhiteSpace c)));
      [exact Hrendered|].
    unfold rendered. rewrite Forall_map.
    eapply Forall_impl; [exact Hall|]. intros l Hl.
    destruct (GeminiTextFacts.renderLine_last l Hl) as (c & t & Hrev & Hc).
    exists c, t. rewrite Hc. auto. }
  assert (Htrim : trim (join GeminiText.lineFeed rendered)
                  = join GeminiText.lineFeed rendered).
  { destruct Hhead as (c & t & Hjoin & Hc).
    destruct Hlast as (c' & t' & Hrev & Hc').
    apply trim_fixed.
    - rewrite Hjoin. apply GeminiTextFacts.isDigit_not_space, Hc.
    - rewrite Hrev. apply negb_true_iff, Hc'. }
  unfold GeminiText.parseSentences. cbn [option_map]. rewrite Htrim.
  destruct Hhead as (c & t & Hjoin & _).
  destruct (join GeminiText.lineFeed rendered) as [|c0 t0] eqn:Hj;
    [discriminate|].
  rewrite <- Hj. unfold GeminiText.lineFeed.
  rewrite GeminiTextFacts.split_join_unit; [|exact Hrendered|].
  2: { unfold rendered. rewrite Forall_map.
       eapply Forall_impl; [exact Hall|]. intros l Hl.
       apply GeminiTextFacts.renderLine_no_lineFeed, Hl. }
  unfold rendered. clear - Hall. f_equal.
  induction Hall as [|l lines Hl Hall IH]; [reflexivity|].
  cbn [map List.filter].
  rewrite (GeminiTextFacts.renderLine_trim l Hl).
  destruct (GeminiTextFacts.renderLine_head l Hl) as (c & t & Hhead & _).
  rewrite Hhead at 1. cbn [GeminiText.nonEmpty map List.filter].
  rewrite (GeminiTextFacts.stripNumbering_renderLine l Hl).
  destruct Hl as (_ & _ & _ & _ & _ & Hs & _).
  destruct (GeminiText.sentence l) as [|c' t'] eqn:Hsentence; [contradiction|].
  cbn [GeminiText.nonEmpty]. rewrite IH. reflexivity.
Qed.

Lemma parseSentences_numbered_list_witness :
  GeminiText.parseSentences
    (Some (join GeminiText.lineFeed
             (map GeminiText.renderLine
                [ {| GeminiText.digits := js "1"; GeminiText.mark := 46;
                     GeminiText.blanks := js " ";
                     GeminiText.sentence := js "Eu gosto de café." |};
                  {| GeminiText.digits := js "12"; GeminiText.mark := 41;
                     GeminiText.blanks := [];
                     GeminiText.sentence := js "Obrigado!" |} ])))
  = inr [js "Eu gosto de café."; js "Obrigado!"].
Proof.
  apply (parseSentences_numbered_list
           [ {| GeminiText.digits := js "1"; GeminiText.mark := 46;
                GeminiText.blanks := js " ";
                GeminiText.sentence := js "Eu gosto de café." |};
             {| GeminiText.digits := js "12"; GeminiText.mark := 41;
                GeminiText.blanks := [];
                GeminiText.sentence := js "Obrigado!" |} ]).
  - discriminate.
  - repeat constructor; vm_compute; try discriminate; try reflexivity;
      try tauto; intuition discriminate.
Defined.

Module CleanTextFacts.
Import GeminiText.

Lemma split_go_units (Q : N -> Prop) (sep s cur : jsstring) (skip : nat) :
  Forall Q s -> Forall Q cur ->
  Forall (Forall Q) (split_go sep s cur skip).
Proof.
  intros Hs. revert cur skip.
  induction Hs as [|c s Hc Hs IH]; intros cur skip Hcur.
  - repeat constructor. exact Hcur.
  - cbn [split_go]. destruct skip; [|apply IH, Hcur].
    destruct (startsWith sep (c :: s)).
    + constructor; [exact Hcur | apply IH; constructor].
    + apply IH. apply Forall_app. auto.
Qed.

Lemma join_nil_units (Q : N -> Prop) (parts : list jsstring) :
  Forall (Forall Q) parts -> Forall Q (join [] parts).
Proof.
  induction 1 as [|part parts Hpart Hparts IH]; [constructor|].
  destruct parts as [|part' parts]; [exact Hpart|].
  rewrite join_cons. cbn [app]. apply Forall_app. auto.
Qed.

Lemma split_go_length (sep s cur : jsstring) (skip : nat) :
  (length (join [] (split_go sep s cur skip)) <= length cur + length s)%nat.
Proof.
  revert cur skip. induction s as [|c s IH]; intros cur skip.
  - simpl. lia.
  - cbn [split_go length]. destruct skip.
    + destruct (startsWith sep (c :: s)).
      * pose proof (split_go_not_nil sep s [] (Nat.pred (length sep))) as Hne.
        specialize (IH [] (Nat.pred (length sep))).
        destruct (split_go sep s [] (Nat.pred (length sep))) as [|q rest];
          [contradiction|].
        rewrite join_cons. cbn [app]. rewrite length_app.
        cbn [length] in IH. lia.
      * specialize (IH (cur ++ [c]) O). rewrite length_app in IH.
        cbn [length] in IH. lia.
    + specialize (IH cur skip). lia.
Qed.

Lemma replaceAll_units (Q : N -> Prop) (literal s : jsstring) :
  Forall Q s -> Forall Q (replaceAll literal [] s).
Proof.
  intros Hs. unfold replaceAll, split. destruct literal as [|a literal].
  - apply join_nil_units. rewrite Forall_map.
    eapply Forall_impl; [exact Hs|]. intros c Hc. repeat constructor. exact Hc.
  - apply join_nil_units, split_go_units; [exact Hs | constructor].
Qed.

Lemma replaceAll_length (a : N) (literal s : jsstring) :
  (length (replaceAll (a :: literal) [] s) <= length s)%nat.
Proof. unfold replaceAll, split. apply (split_go_length _ s []). Qed.

Lemma replaceAll_absent (a : N) (literal replacement s : jsstring) :
  ~ In a s -> replaceAll (a :: literal) replacement s = s.
Proof.
  intros Hin. unfold replaceAll, split.
  rewrite GeminiTextFacts.split_go_absent by exact Hin. reflexivity.
Qed.

Lemma replaceAll_unit (a : N) (replacement s : jsstring) :
  replaceAll [a] replacement s
  = flat_map (fun c => if a =? c then replacement else [c]) s.
Proof. unfold replaceAll, split. apply (AccentFacts.join_split_unit a _ s []). Qed.

End CleanTextFacts.

(** X11.  The story that [generateStory] returns holds no asterisk and no
    underscore, and is not longer than the generated text; a generated text
    that holds neither is returned as it is. *)
Theorem cleanText_no_markdown :
  forall generatedText : jsstring,
    Forall (fun c => c <> 42 /\ c <> 95) (GeminiText.cleanText generatedText)
    /\ (length (GeminiText.cleanText generatedText)
        <= length generatedText)%nat
    /\ (~ In 42 generatedText -> ~ In 95 generatedText ->
        GeminiText.cleanText generatedText = generatedText).
Proof.
  intros s. unfold GeminiText.cleanText.
  change (js "_") with [95]. change (js "__") with [95; 95].
  change (js "*") with [42]. change (js "**") with [42; 42].
  change (js " ") with [32].
  set (s1 := GeminiText.replaceAll [42; 42] [] s).
  set (s2 := GeminiText.replaceAll [42] [] s1).
  set (s3 := GeminiText.replaceAll [95; 95] [] s2).
  assert (H2 : Forall (fun c => c <> 42) s2).
  { unfold s2. rewrite CleanTextFacts.replaceAll_unit.
    apply Forall_forall. intros c Hc.
    apply list_elem_of_In, in_flat_map in Hc as (d & _ & Hd).
    destruct (42 =? d) eqn:E; [destruct Hd|].
    destruct Hd as [<- | []]. apply N.eqb_neq in E. congruence. }
  assert (H3 : Forall (fun c => c <> 42) s3)
    by (apply CleanTextFacts.replaceAll_units, H2).
  split; [|split].
  - rewrite CleanTextFacts.replaceAll_unit.
    apply Forall_forall. intros c Hc.
    apply list_elem_of_In, in_flat_map in Hc as (d & Hd & Hc).
    rewrite Forall_forall in H3.
    apply list_elem_of_In, H3 in Hd.
    destruct (95 =? d) eqn:E.
    + destruct Hc as [<- | []]. split; discriminate.
    + destruct Hc as [<- | []]. apply N.eqb_neq in E. split; congruence.
  - assert (L1 : (length s1 <= length s)%nat)
      by apply CleanTextFacts.replaceAll_length.
    assert (L2 : (length s2 <= length s1)%nat)
      by apply CleanTextFacts.replaceAll_length.
    assert (L3 : (length s3 <= length s2)%nat)
      by apply CleanTextFacts.replaceAll_length.
    assert (L4 : length (GeminiText.replaceAll [95] [32] s3) = length s3).
    { rewrite CleanTextFacts.replaceAll_unit.
      clear. induction s3 as [|c t IH]; [reflexivity|].
      cbn [flat_map]. destruct (95 =? c); cbn [app length]; rewrite IH;
        reflexivity. }
    lia.
  - intros Hstar Hunder. unfold s3, s2, s1.
    rewrite (CleanTextFacts.replaceAll_absent 42 [42] [] s Hstar).
    rewrite (CleanTextFacts.replaceAll_absent 42 [] [] s Hstar).
    rewrite (CleanTextFacts.replaceAll_absent 95 [95] [] s Hunder).
    apply (CleanTextFacts.replaceAll_absent 95 [] [32] s Hunder).
Qed.
(** ** gemini.ts: more on the selection *)

Module GeminiMore.
Import Gemini.
Local Open Scope Z_scope.

Ltac evaluate_powers :=
  repeat match goal with
  | |- context [2 ^ ?k] =>
    let v := eval vm_compute in (2 ^ k) in change (2 ^ k) with v
  | H : context [2 ^ ?k] |- _ =>
    let v := eval vm_compute in (2 ^ k) in change (2 ^ k) with v in H
  end.

(** With the binary exponent fixed, everything is linear in the length. *)
Lemma rounded_floor (e n : Z) :
  1 <= e <= 32 ->
  2 ^ (e + 52) <= n * mantissa03 < 2 ^ (e + 53) ->
  roundNearestEven (n * mantissa03) e / 2 ^ (54 - e) = 3 * n / 10.
Proof.
  intros He HP.
  assert (Hcases : exists k : nat, (k < 32)%nat /\ e = Z.of_nat k + 1).
  { exists (Z.to_nat (e - 1)). lia. }
  destruct Hcases as (k & Hk & ->). clear He.
  unfold roundNearestEven, mantissa03 in *.
  do 32 (destruct k as [|k]; [
    cbn [Z.of_nat Pos.of_succ_nat Pos.succ Z.add Pos.add Z.sub Z.opp
         Z.pos_sub Pos.pred_double] in *;
    evaluate_powers;
    repeat match goal with
    | |- context [if ?b then _ else _] => destruct b eqn:?
    end;
    repeat match goal with
    | H : (_ <? _) = true |- _ => apply Z.ltb_lt in H
    | H : (_ <? _) = false |- _ => apply Z.ltb_ge in H
    end;
    Z.div_mod_to_equations; lia |]).
  lia.
Qed.

Lemma floorTimes03_floor (n : Z) :
  0 <= n < 2 ^ 32 -> floorTimes03 n = 3 * n / 10.
Proof.
  intros Hn. unfold floorTimes03.
  destruct (n * mantissa03 <=? 0) eqn:E.
  - apply Z.leb_le in E. unfold mantissa03 in E.
    assert (n = 0) by lia. subst n. reflexivity.
  - apply Z.leb_gt in E.
    pose proof (Z.log2_spec _ E) as Hlog.
    assert (Hone : 1 <= n) by (unfold mantissa03 in E; lia).
    assert (Hlow : 52 <= Z.log2 (n * mantissa03)).
    { apply Z.log2_le_pow2; [exact E|]. unfold mantissa03.
      change (2 ^ 52) with 4503599627370496. lia. }
    assert (Hhigh : Z.log2 (n * mantissa03) < 85).
    { apply Z.log2_lt_pow2; [exact E|]. unfold mantissa03.
      change (2 ^ 32) with 4294967296 in Hn.
      change (2 ^ 85) with 38685626227668133590597632. lia. }
    set (e := Z.log2 (n * mantissa03) - 52) in *.
    replace (Z.log2 (n * mantissa03)) with (e + 52) in Hlog by (unfold e; lia).
    replace (Z.succ (e + 52)) with (e + 53) in Hlog by lia.
    destruct (e <=? 0) eqn:E0.
    + apply Z.leb_le in E0. assert (He : e = 0) by (unfold e in *; lia).
      rewrite He in *.
      change (Z.max 0 0) with 0. change (54 <=? 0) with false. cbv iota.
      change (54 - 0) with 54. change (0 + 53) with 53 in Hlog.
      unfold mantissa03 in *. evaluate_powers.
      Z.div_mod_to_equations. lia.
    + apply Z.leb_gt in E0. rewrite Z.max_l by lia.
      destruct (54 <=? e) eqn:E54; [apply Z.leb_le in E54; unfold e in *; lia|].
      apply rounded_floor; [unfold e in *; lia | exact Hlog].
Qed.

End GeminiMore.

(** X12.  For every array length, the binary64 computation
    [Math.floor(words.length * 0.3)] gives the floor of three tenths of the
    length exactly: the rounding of the literal 0.3 and of the product never
    makes the result one too small or one too large. *)
Theorem floorTimes03_exact :
  forall n : Z,
    (0 <= n < 2 ^ 32)%Z ->
    Gemini.floorTimes03 n = (3 * n / 10)%Z.
Proof. intros n Hn. apply GeminiMore.floorTimes03_floor, Hn. Qed.

Lemma floorTimes03_exact_witness :
  Gemini.floorTimes03 10 = (3 * 10 / 10)%Z.
Proof.
  apply (floorTimes03_exact 10). vm_compute.
  split; [discriminate | reflexivity].
Defined.

(** X13.  The words selected for a story are the first words of the
    shuffled vocabulary: no word is selected more often than the vocabulary
    holds it.  At most 25 words are selected; with 15 words or more, at
    least 15; with 15 words or fewer, the whole vocabulary. *)
Theorem selectedWords_bounds :
  forall (A : Type) (words shuffled : list A),
    Permutation words shuffled ->
    Gemini.selectedWords words shuffled ⊆+ words
    /\ (exists rest, shuffled = Gemini.selectedWords words shuffled ++ rest)
    /\ (length (Gemini.selectedWords words shuffled) <= 25)%nat
    /\ ((15 <= length words)%nat ->
        (15 <= length (Gemini.selectedWords words shuffled))%nat)
    /\ ((length words <= 15)%nat ->
        Gemini.selectedWords words shuffled = shuffled).
Proof.
  intros A words shuffled Hperm.
  pose proof (GeminiFacts.selectedWords_length words shuffled Hperm) as Hlen.
  assert (Hfloor : (0 <= 3 * Z.of_nat (length words) / 10)%Z)
    by (apply Z.div_pos; lia).
  unfold Gemini.selectedWords in *. repeat split.
  - transitivity shuffled.
    + apply sublist_submseteq, sublist_take.
    + apply Permutation_submseteq. symmetry. exact Hperm.
  - exists (drop (Gemini.sliceEnd (length words)) shuffled).
    symmetry. apply take_drop.
  - lia.
  - intros HN. lia.
  - intros HN. apply take_ge.
    rewrite <- (Permutation_length Hperm).
    rewrite GeminiFacts.sliceEnd_floor. lia.
Qed.

Lemma selectedWords_bounds_witness :
  let words := seq 0 12 in
  Gemini.selectedWords words (rev words) ⊆+ words
  /\ (exists rest,
        rev words = Gemini.selectedWords words (rev words) ++ rest)
  /\ (length (Gemini.selectedWords words (rev words)) <= 25)%nat
  /\ ((15 <= length words)%nat ->
      (15 <= length (Gemini.selectedWords words (rev words)))%nat)
  /\ ((length words <= 15)%nat ->
      Gemini.selectedWords words (rev words) = rev words).
Proof.
  exact (selectedWords_bounds nat (seq 0 12) (rev (seq 0 12))
           (Permutation_rev (seq 0 12))).
Defined.

(** ** backup.ts and settings.tsx: export, import, and the store *)

Module ImportMore.
Import Backup Settings.
Local Open Scope string_scope.

Section Clock.
Variable clock : nat -> Z.

(** A complete word passes the loop as it is, and no clock is read. *)
Lemma checkWord_complete (word : json) (k : nat) :
  wordComplete word = true -> checkWord clock word k = inr (word, k).
Proof.
  destruct word as [| | | | |w]; try discriminate.
  cbn [wordComplete]. intros Hcomplete.
  repeat match type of Hcomplete with
  | (_ && _) = true =>
    let H := fresh "H" in apply andb_true_iff in Hcomplete as [Hcomplete H]
  end.
  cbn [checkWord]. rewrite Hcomplete, H3, H2. cbn [negb orb].
  unfold ensureExamples. rewrite H1.
  unfold bind, ensureTimestamp. rewrite H0. cbn [ret].
  rewrite H. reflexivity.
Qed.

Lemma checkWords_complete (words : list json) (k : nat) :
  Forall (fun word => wordComplete word = true) words ->
  checkWords clock words k = inr (words, k).
Proof.
  induction 1 as [|word words Hword Hwords IH]; [reflexivity|].
  cbn [checkWords]. unfold bind. rewrite (checkWord_complete _ _ Hword).
  fold (checkWords clock words). rewrite IH. reflexivity.
Qed.

Hypothesis clock_not_zero : forall k, clock k <> 0%Z.

Lemma timestampRepaired_truthy (k0 k1 : nat) (old new : option json) :
  timestampRepaired clock k0 k1 old new -> truthy new = true.
Proof.
  unfold timestampRepaired. destruct (truthy old) eqn:Hold.
  - intros ->. exact Hold.
  - intros (k & _ & ->). cbn [truthy].
    apply negb_true_iff, Z.eqb_neq, clock_not_zero.
Qed.

Lemma repaired_complete (k0 k1 : nat) (word word' : json) :
  wordValid word = true -> repaired clock k0 k1 word word' ->
  wordComplete word' = true.
Proof.
  intros Hvalid (w & w' & -> & -> & Hex & Hc & Hu & Hrest).
  cbn [wordValid wordComplete] in *.
  rewrite !Hrest by discriminate. rewrite Hvalid. cbn [andb].
  rewrite (timestampRepaired_truthy _ _ _ _ Hc).
  rewrite (timestampRepaired_truthy _ _ _ _ Hu).
  rewrite Hex. destruct (isArray (w !! "examples")) eqn:Harray;
    [rewrite Harray|]; reflexivity.
Qed.

Lemma checkWords_returns_complete (words words' : list json) (k k' : nat) :
  checkWords clock words k = inr (words', k') ->
  Forall (fun word => wordComplete word = true) words'
  /\ length words' = length words.
Proof.
  intros Hcheck.
  destruct (forallb wordValid words) eqn:Hvalid.
  - destruct (BackupFacts.checkWords_valid clock words k Hvalid)
      as (ws & k1 & E & _ & Hrepaired).
    rewrite E in Hcheck. injection Hcheck as <- <-.
    rewrite forallb_forall in Hvalid. split.
    + clear E. induction Hrepaired as [|word word' words ws Hr Hrs IH];
        constructor.
      * eapply repaired_complete; [|exact Hr]. apply Hvalid. left. reflexivity.
      * apply IH. intros x Hx. apply Hvalid. right. exact Hx.
    + symmetry. eapply Forall2_length, Hrepaired.
  - destruct (BackupFacts.checkWords_invalid clock words k Hvalid)
      as (e & E & _).
    rewrite E in Hcheck. discriminate.
Qed.

Lemma importFromJson_returns_complete (result : PickerResult)
  (words : list json) (k k' : nat) :
  importFromJson clock result k = inr (words, k') ->
  Forall (fun word => wordComplete word = true) words
  /\ exists d given,
       result = Picked (Some (JObj d))
       /\ d !! "words" = Some (JArr given) /\ length words = length given.
Proof.
  intros E.
  destruct result as [|[data|]]; cbn in E; try discriminate.
  destruct data as [| | | | |d]; cbn in E; try discriminate.
  destruct (d !! "words") as [[| | | |ws|]|] eqn:Hd; try discriminate.
  destruct (checkWords_returns_complete _ _ _ _ E) as [Hcomplete Hlen].
  split; [exact Hcomplete|]. exists d, ws. auto.
Qed.

End Clock.

Ltac lookup_inserted :=
  repeat (rewrite lookup_insert_eq
          || rewrite lookup_insert_ne by discriminate).

Lemma wordJson_complete (w : BackupFile.Word) :
  BackupFile.id w <> "" -> BackupFile.portuguese w <> ""
  -> BackupFile.french w <> ""
  -> BackupFile.createdAt w <> 0%Z -> BackupFile.updatedAt w <> 0%Z ->
  wordComplete (BackupFile.wordJson w) = true.
Proof.
  intros Hid Hp Hf Hc Hu. unfold BackupFile.wordJson. cbn [wordComplete].
  lookup_inserted. cbn [truthy isArray].
  apply String.eqb_neq in Hid, Hp, Hf. apply Z.eqb_neq in Hc, Hu.
  rewrite Hid, Hp, Hf, Hc, Hu. reflexivity.
Qed.

End ImportMore.

(** X14.  A backup that was exported is imported as it is: when every word
    has an id, a Portuguese and a French text that are not empty and
    timestamps that are not zero, [importFromJson] on the document that
    [exportToJson] wrote returns the words of the document, in order and
    unchanged, and reads no clock; the file is written whether or not the
    device can share it. *)
Theorem export_then_import :
  forall (clock : nat -> Z) (exportedAt : string) (canShare : bool)
         (words : list BackupFile.Word) (k : nat),
    Forall (fun w => BackupFile.id w <> ""%string
                     /\ BackupFile.portuguese w <> ""%string
                     /\ BackupFile.french w <> ""%string
                     /\ BackupFile.createdAt w <> 0%Z
                     /\ BackupFile.updatedAt w <> 0%Z) words ->
    Backup.importFromJson clock
      (Backup.Picked
         (Some (BackupFile.exportToJson exportedAt canShare words).1)) k
    = inr (map BackupFile.wordJson words, k).
Proof.
  intros clock exportedAt canShare words k Hwords.
  cbn [BackupFile.exportToJson fst Backup.importFromJson].
  unfold BackupFile.backupData. cbn [Backup.validateBackup].
  ImportMore.lookup_inserted.
  apply ImportMore.checkWords_complete.
  rewrite Forall_map. eapply Forall_impl; [exact Hwords|].
  intros w (Hid & Hp & Hf & Hc & Hu).
  apply ImportMore.wordJson_complete; assumption.
Qed.

Lemma export_then_import_witness :
  let casa := {| BackupFile.id := "w1"; BackupFile.portuguese := "casa";
                 BackupFile.french := "maison";
                 BackupFile.examples := ["A casa é grande."];
                 BackupFile.createdAt := 1700000000000;
                 BackupFile.updatedAt := 1700000000001 |} in
  Backup.importFromJson (fun k => Z.of_nat k)
    (Backup.Picked
       (Some (BackupFile.exportToJson "2024-01-01T00:00:00.000Z" false
                [casa]).1)) 0%nat
  = inr (map BackupFile.wordJson [casa], 0%nat).
Proof.
  apply (export_then_import (fun k => Z.of_nat k)
           "2024-01-01T00:00:00.000Z" false
           [ {| BackupFile.id := "w1"; BackupFile.portuguese := "casa";
                BackupFile.french := "maison";
                BackupFile.examples := ["A casa é grande."];
                BackupFile.createdAt := 1700000000000;
                BackupFile.updatedAt := 1700000000001 |} ] 0%nat).
  repeat constructor; discriminate.
Defined.

(** X15.  With a clock that never reads zero, the import button hands to the
    store only complete words: [importWords] is called exactly when
    [importFromJson] returns, with the words it returned; every one of them
    is an object with an id, a Portuguese and a French text, an [examples]
    array and both timestamps, and there are as many words as the document
    has.  When the validation throws, [importWords] is not called, and a
    cancelled import shows no alert. *)
Theorem handleImport_hands_complete_words :
  forall (clock : nat -> Z) (result : Backup.PickerResult)
         (storeFails : bool) (k : nat),
    (forall j, clock j <> 0%Z) ->
    match Settings.handleImport clock result storeFails k with
    | (Some words, alert) =>
      (exists k', Backup.importFromJson clock result k = inr (words, k'))
      /\ Forall (fun word => Settings.wordComplete word = true) words
      /\ (exists data given,
            result = Backup.Picked (Some data)
            /\ Backup.wordsArray data = Some given
            /\ length words = length given)
      /\ alert = (if storeFails then Settings.StoreFailedAlert
                  else Settings.SuccessAlert (length words))
    | (None, alert) =>
      (exists e, Backup.importFromJson clock result k = inl e)
      /\ (alert = Settings.NoAlert <-> result = Backup.Canceled)
    end.
Proof.
  intros clock result storeFails k Hclock. unfold Settings.handleImport.
  destruct (Backup.importFromJson clock result k) as [e | [words k']] eqn:E.
  - assert (Hcancel : e = Backup.ImportCancelled <-> result = Backup.Canceled).
    { destruct result as [|[data|]]; cbn in E.
      - injection E as <-. tauto.
      - split; [|discriminate]. intros ->.
        destruct data as [| | | | |d]; cbn in E; try discriminate.
        destruct (d !! "words"%string) as [[| | | |ws|]|]; try discriminate.
        destruct (BackupFacts.checkWords_invalid clock ws k) as (e' & E' & He').
        { destruct (forallb Backup.wordValid ws) eqn:Hv; [|reflexivity].
          destruct (BackupFacts.checkWords_valid clock ws k Hv)
            as (? & ? & E' & _). congruence. }
        rewrite E' in E. injection E as ->. destruct He'; discriminate.
      - injection E as <-. split; discriminate. }
    destruct e; (split; [eauto|]); rewrite <- Hcancel;
      split; try discriminate; reflexivity.
  - destruct (ImportMore.importFromJson_returns_complete
                clock Hclock _ _ _ _ E)
      as [Hcomplete (d & ws & -> & Hd & Hlen)].
    split; [exists k'; reflexivity|].
    split; [exact Hcomplete|]. split; [|reflexivity].
    exists (Backup.JObj d), ws. cbn [Backup.wordsArray]. rewrite Hd. auto.
Qed.

Lemma handleImport_hands_complete_words_witness :
  let bare : gmap string Backup.json :=
    <["id"%string := Backup.JStr "w1"]>
      (<["portuguese"%string := Backup.JStr "casa"]>
         (<["french"%string := Backup.JStr "maison"]> ∅)) in
  let picked :=
    Backup.Picked
      (Some (Backup.JObj
               (<["words"%string := Backup.JArr [Backup.JObj bare]]> ∅))) in
  match Settings.handleImport (fun j => Z.of_nat (S j)) picked false
          0%nat with
  | (Some words, alert) =>
    (exists k', Backup.importFromJson (fun j => Z.of_nat (S j)) picked 0%nat
                = inr (words, k'))
    /\ Forall (fun word => Settings.wordComplete word = true) words
    /\ (exists data given,
          picked = Backup.Picked (Some data)
          /\ Backup.wordsArray data = Some given
          /\ length words = length given)
    /\ alert = (if false then Settings.StoreFailedAlert
                else Settings.SuccessAlert (length words))
  | (None, alert) =>
    (exists e, Backup.importFromJson (fun j => Z.of_nat (S j)) picked 0%nat
               = inl e)
    /\ (alert = Settings.NoAlert <-> picked = Backup.Canceled)
  end.
Proof.
  intros bare picked.
  apply (handleImport_hands_complete_words (fun j => Z.of_nat (S j))
           picked false 0%nat).
  intros j. lia.
Defined.

(** X16.  The first word of the backup that is not valid decides the error:
    a [null] entry makes the import fail with the TypeError of reading a
    property of [null], any other invalid entry with "Invalid word data",
    whatever follows it. *)
Theorem import_first_invalid_word :
  forall (clock : nat -> Z) (d : gmap string Backup.json)
         (valid rest : list Backup.json) (bad : Backup.json) (k : nat),
    d !! "words"%string = Some (Backup.JArr (valid ++ bad :: rest)) ->
    forallb Backup.wordValid valid = true ->
    Backup.wordValid bad = false ->
    Backup.importFromJson clock (Backup.Picked (Some (Backup.JObj d))) k
    = inl (match bad with
           | Backup.JNull => Backup.NullPropertyRead
           | _ => Backup.InvalidWordData
           end).
Proof.
  intros clock d valid rest bad k Hd Hvalid Hbad.
  cbn [Backup.importFromJson Backup.validateBackup]. rewrite Hd. clear Hd.
  revert k. induction valid as [|word valid IH]; intros k.
  - cbn [app Backup.checkWords]. unfold Backup.bind.
    destruct (BackupFacts.checkWord_invalid clock bad k Hbad) as [E | [-> E]];
      rewrite E; [|reflexivity].
    destruct bad; try reflexivity. discriminate.
  - cbn [forallb] in Hvalid. apply andb_true_iff in Hvalid as [Hword Hvalid].
    cbn [app Backup.checkWords]. unfold Backup.bind.
    destruct (BackupFacts.checkWord_valid clock word k Hword)
      as (word' & k1 & E & _).
    rewrite E. fold (Backup.checkWords clock (valid ++ bad :: rest)).
    rewrite (IH Hvalid k1). reflexivity.
Qed.

Lemma import_first_invalid_word_witness :
  let casa : gmap string Backup.json :=
    <["id"%string := Backup.JStr "w1"]>
      (<["portuguese"%string := Backup.JStr "casa"]>
         (<["french"%string := Backup.JStr "maison"]> ∅)) in
  let rua : gmap string Backup.json :=
    <["id"%string := Backup.JStr "w2"]>
      (<["portuguese"%string := Backup.JStr "rua"]>
         (<["french"%string := Backup.JStr "rue"]> ∅)) in
  Backup.importFromJson (fun k => Z.of_nat k)
    (Backup.Picked
       (Some (Backup.JObj
                (<["words"%string :=
                     Backup.JArr ([Backup.JObj casa; Backup.JObj rua]
                                  ++ Backup.JNull
                                  :: [Backup.JNum 3; Backup.JObj casa])]>
                   ∅))))
    0%nat
  = inl Backup.NullPropertyRead.
Proof.
  intros casa rua.
  apply (import_first_invalid_word (fun k => Z.of_nat k)
           (<["words"%string :=
                Backup.JArr ([Backup.JObj casa; Backup.JObj rua]
                             ++ Backup.JNull
                             :: [Backup.JNum 3; Backup.JObj casa])]> ∅)
           [Backup.JObj casa; Backup.JObj rua]
           [Backup.JNum 3; Backup.JObj casa] Backup.JNull 0%nat);
    reflexivity.
Defined.

(** X17.  What an import returns is stable: with a clock that never reads
    zero, a backup made of the words that [importFromJson] returned is
    imported as these very words, and no clock is read. *)
Theorem import_again_unchanged :
  forall (clock : nat -> Z) (result : Backup.PickerResult)
         (words : list Backup.json) (k k' : nat),
    (forall j, clock j <> 0%Z) ->
    Backup.importFromJson clock result k = inr (words, k') ->
    forall (again : gmap string Backup.json) (k2 : nat),
      again !! "words"%string = Some (Backup.JArr words) ->
      Backup.importFromJson clock
        (Backup.Picked (Some (Backup.JObj again))) k2
      = inr (words, k2).
Proof.
  intros clock result words k k' Hclock E again k2 Hagain.
  destruct (ImportMore.importFromJson_returns_complete
              clock Hclock _ _ _ _ E) as [Hcomplete _].
  cbn [Backup.importFromJson Backup.validateBackup]. rewrite Hagain.
  apply ImportMore.checkWords_complete, Hcomplete.
Qed.

Lemma import_again_unchanged_witness :
  let bare : gmap string Backup.json :=
    <["id"%string := Backup.JStr "w1"]>
      (<["portuguese"%string := Backup.JStr "casa"]>
         (<["french"%string := Backup.JStr "maison"]> ∅)) in
  let words :=
    [Backup.JObj
       (<["updatedAt"%string := Backup.JNum 2]>
          (<["createdAt"%string := Backup.JNum 1]>
             (<["examples"%string := Backup.JArr []]> bare)))] in
  Backup.importFromJson (fun j => Z.of_nat (S j))
    (Backup.Picked
       (Some (Backup.JObj (<["words"%string := Backup.JArr words]> ∅))))
    5%nat
  = inr (words, 5%nat).
Proof.
  intros bare words.
  apply (import_again_unchanged (fun j => Z.of_nat (S j))
           (Backup.Picked
              (Some (Backup.JObj
                       (<["words"%string := Backup.JArr [Backup.JObj bare]]>
                          ∅))))
           words 0%nat 2%nat).
  - intros j. lia.
  - vm_compute. reflexivity.
  - reflexivity.
Defined.

(* ===================================================================== *)
(** ** The word list, the reducer and the add screen *)
(* ===================================================================== *)

Section SortOrder.
Context {A : Type} (cmp : A -> A -> Z).
Hypothesis cmp_total : forall a b, (0 < cmp a b)%Z -> (cmp b a <= 0)%Z.
Hypothesis cmp_trans :
  forall a b c, (cmp a b <= 0)%Z -> (cmp b c <= 0)%Z -> (cmp a c <= 0)%Z.

Definition inOrder (a b : A) : Prop := (cmp a b <= 0)%Z.

Lemma sort_insert_inOrder (x : A) (l : list A) :
  StronglySorted inOrder l ->
  StronglySorted inOrder (Learn.sort_insert cmp x l).
Proof.
  induction 1 as [|y l Hs IH Hy]; simpl.
  - constructor; constructor.
  - destruct (cmp x y <=? 0)%Z eqn:E.
    + apply Z.leb_le in E.
      constructor; [constructor; assumption|].
      constructor; [exact E|].
      eapply Forall_impl; [exact Hy|].
      intros z Hz. exact (cmp_trans x y z E Hz).
    + apply Z.leb_gt in E.
      constructor; [exact IH|].
      rewrite <- sort_insert_perm.
      constructor; [apply cmp_total; exact E | exact Hy].
Qed.

Lemma sort_inOrder (l : list A) : StronglySorted inOrder (Learn.sort cmp l).
Proof.
  induction l as [|x l IH]; simpl; [constructor|].
  apply sort_insert_inOrder, IH.
Qed.

End SortOrder.

Section SortStable.
Context {A : Type} (key : A -> Z) (cmp : A -> A -> Z).
Hypothesis cmp_strict : forall a b, (0 < cmp a b)%Z -> key a <> key b.

Lemma sort_insert_stable (k : Z) (x : A) (l : list A) :
  List.filter (fun a => Z.eqb (key a) k) (Learn.sort_insert cmp x l)
  = List.filter (fun a => Z.eqb (key a) k) (x :: l).
Proof.
  induction l as [|y l IH]; [reflexivity|].
  cbn [Learn.sort_insert].
  destruct (cmp x y <=? 0)%Z eqn:E; [reflexivity|].
  apply Z.leb_gt, cmp_strict in E.
  cbn [List.filter] in *. rewrite IH.
  destruct (Z.eqb (key y) k) eqn:Ey, (Z.eqb (key x) k) eqn:Ex;
    try reflexivity.
  apply Z.eqb_eq in Ey, Ex. congruence.
Qed.

Lemma sort_stable (k : Z) (l : list A) :
  List.filter (fun a => Z.eqb (key a) k) (Learn.sort cmp l)
  = List.filter (fun a => Z.eqb (key a) k) l.
Proof.
  induction l as [|x l IH]; [reflexivity|].
  cbn [Learn.sort fold_right]. fold (Learn.sort cmp l).
  rewrite sort_insert_stable. cbn [List.filter]. rewrite IH. reflexivity.
Qed.

End SortStable.

Lemma includes_empty (hay : jsstring) : Quiz.includes [] hay = true.
Proof. destruct hay; reflexivity. Qed.

Lemma StronglySorted_weaken {A : Type} (R R' : A -> A -> Prop)
  (l : list A) :
  (forall a b, R a b -> R' a b) ->
  StronglySorted R l -> StronglySorted R' l.
Proof.
  intros HR. induction 1 as [|a l Hs IH Ha]; constructor; [exact IH|].
  eapply Forall_impl; [exact Ha|]. intros b. apply HR.
Qed.

Lemma filter_all {A : Type} (p : A -> bool) (l : list A) :
  (forall a, p a = true) -> List.filter p l = l.
Proof.
  intros Hp. induction l as [|a l IH]; [reflexivity|].
  cbn [List.filter]. rewrite Hp, IH. reflexivity.
Qed.

(** X18.  The word list shows the words of the store that match the search,
    each as often as the store holds it, whatever the sort order; with an
    empty search it shows them all. *)
Theorem word_list_shows_matching_words :
  forall (P : Platform) (localeCompare : jsstring -> jsstring -> Z)
         (words : list Vocabulary.Word) (searchQuery : jsstring)
         (sortBy : WordList.SortOption),
    WordList.filteredAndSortedWords localeCompare words searchQuery sortBy
      ≡ₚ List.filter (WordList.matchesQuery searchQuery) words
    /\ WordList.filteredAndSortedWords localeCompare words [] sortBy
         ≡ₚ words
    /\ (forall word,
          In word (WordList.filteredAndSortedWords localeCompare words
                     searchQuery sortBy)
          <-> In word words
              /\ (Quiz.includes (toLowerCase searchQuery)
                    (toLowerCase (Vocabulary.portuguese word)) = true
                  \/ Quiz.includes (toLowerCase searchQuery)
                       (toLowerCase (Vocabulary.french word)) = true)).
Proof.
  intros P localeCompare words searchQuery sortBy.
  unfold WordList.filteredAndSortedWords.
  split; [symmetry; apply sort_perm|].
  split.
  - rewrite <- sort_perm. rewrite filter_all; [reflexivity|].
    intros word. unfold WordList.matchesQuery.
    rewrite toLowerCase_empty, includes_empty. reflexivity.
  - intros word. split.
    + intros Hin.
      apply (Permutation_in _ (Permutation_sym (sort_perm _ _))) in Hin.
      apply filter_In in Hin as [Hin Hmatch].
      split; [exact Hin|]. apply orb_true_iff. exact Hmatch.
    + intros [Hin Hmatch].
      apply (Permutation_in _ (sort_perm _ _)).
      apply filter_In. split; [exact Hin|]. apply orb_true_iff, Hmatch.
Qed.

(** X19.  Sorted by date, the word list is in order: with "newest" no word
    comes before a word created later, with "oldest" none before a word
    created earlier; in both orders the words created at the same
    millisecond keep the order they have in the store. *)
Theorem word_list_ordered_by_date :
  forall (P : Platform) (localeCompare : jsstring -> jsstring -> Z)
         (words : list Vocabulary.Word) (searchQuery : jsstring),
    StronglySorted
      (fun a b => (Vocabulary.createdAt b <= Vocabulary.createdAt a)%Z)
      (WordList.filteredAndSortedWords localeCompare words searchQuery
         WordList.newest)
    /\ StronglySorted
         (fun a b => (Vocabulary.createdAt a <= Vocabulary.createdAt b)%Z)
         (WordList.filteredAndSortedWords localeCompare words searchQuery
            WordList.oldest)
    /\ (forall (sortBy : WordList.SortOption) (date : Z),
          List.filter (fun w => Z.eqb (Vocabulary.createdAt w) date)
            (WordList.filteredAndSortedWords localeCompare words
               searchQuery
               (match sortBy with
                | WordList.oldest => WordList.oldest
                | _ => WordList.newest
                end))
          = List.filter (fun w => Z.eqb (Vocabulary.createdAt w) date)
              (List.filter (WordList.matchesQuery searchQuery) words)).
Proof.
  intros P localeCompare words searchQuery.
  unfold WordList.filteredAndSortedWords.
  split; [|split].
  - eapply StronglySorted_weaken;
      [|apply (sort_inOrder
                 (WordList.compareWords localeCompare WordList.newest))].
    + unfold inOrder. cbn [WordList.compareWords]. intros a b. lia.
    + cbn [WordList.compareWords]. intros a b. lia.
    + cbn [WordList.compareWords]. intros a b c. lia.
  - eapply StronglySorted_weaken;
      [|apply (sort_inOrder
                 (WordList.compareWords localeCompare WordList.oldest))].
    + unfold inOrder. cbn [WordList.compareWords]. intros a b. lia.
    + cbn [WordList.compareWords]. intros a b. lia.
    + cbn [WordList.compareWords]. intros a b c. lia.
  - intros sortBy date. apply sort_stable.
    destruct sortBy; cbn [WordList.compareWords]; intros a b; lia.
Qed.

(** X20.  With a collation that is a total preorder, the alphabetical word
    list is in the order of the collation: no word comes before a word that
    [localeCompare] places strictly before it. *)
Theorem word_list_alphabetical :
  forall (P : Platform) (localeCompare : jsstring -> jsstring -> Z)
         (words : list Vocabulary.Word) (searchQuery : jsstring),
    (forall a b, (0 < localeCompare a b)%Z -> (localeCompare b a <= 0)%Z) ->
    (forall a b c, (localeCompare a b <= 0)%Z ->
                   (localeCompare b c <= 0)%Z ->
                   (localeCompare a c <= 0)%Z) ->
    StronglySorted
      (fun a b =>
         (localeCompare (Vocabulary.portuguese a) (Vocabulary.portuguese b)
          <= 0)%Z)
      (WordList.filteredAndSortedWords localeCompare words searchQuery
         WordList.alphabetical).
Proof.
  intros P localeCompare words searchQuery Htotal Htrans.
  unfold WordList.filteredAndSortedWords.
  apply (sort_inOrder
           (WordList.compareWords localeCompare WordList.alphabetical)).
  - cbn [WordList.compareWords]. intros a b. apply Htotal.
  - cbn [WordList.compareWords]. intros a b c. apply Htrans.
Qed.

Lemma word_list_alphabetical_witness :
  let byLength (a b : jsstring) :=
    (Z.of_nat (length a) - Z.of_nat (length b))%Z in
  let word (pt fr : string) (date : Z) :=
    {| Vocabulary.id := js pt; Vocabulary.portuguese := js pt;
       Vocabulary.french := js fr; Vocabulary.examples := [];
       Vocabulary.createdAt := date; Vocabulary.updatedAt := date |} in
  StronglySorted
    (fun a b =>
       (byLength (Vocabulary.portuguese a) (Vocabulary.portuguese b)
        <= 0)%Z)
    (@WordList.filteredAndSortedWords latin1 byLength
       [word "cadeira" "chaise" 1%Z; word "casa" "maison" 2%Z;
        word "rua" "rue" 3%Z]
       (js "A") WordList.alphabetical).
Proof.
  intros byLength word.
  apply (@word_list_alphabetical latin1 byLength
           [word "cadeira" "chaise" 1%Z; word "casa" "maison" 2%Z;
            word "rua" "rue" 3%Z]
           (js "A")); unfold byLength; lia.
Defined.

(** X21.  The sort button goes round the three orders: each press changes
    the order, three presses come back to it, and from "newest" the orders
    follow as the options are listed. *)
Theorem cycleSortOption_round :
  forall sortBy : WordList.SortOption,
    WordList.cycleSortOption sortBy <> sortBy
    /\ WordList.cycleSortOption
         (WordList.cycleSortOption (WordList.cycleSortOption sortBy))
       = sortBy
    /\ [WordList.newest; WordList.cycleSortOption WordList.newest;
        WordList.cycleSortOption
          (WordList.cycleSortOption WordList.newest)]
       = WordList.sortOptions.
Proof.
  intros sortBy. destruct sortBy; repeat split; discriminate.
Qed.

Definition setsWords (action : Context.VocabularyAction) : bool :=
  match action with
  | Context.SET_WORDS _ => true
  | _ => false
  end.

Definition setsError (action : Context.VocabularyAction) : bool :=
  match action with
  | Context.SET_ERROR _ => true
  | _ => false
  end.

Lemma reducer_keeps_words (actions : list Context.VocabularyAction)
  (state : Context.VocabularyState) :
  existsb setsWords actions = false ->
  Context.words (fold_left Context.vocabularyReducer actions state)
  = Context.words state.
Proof.
  revert state. induction actions as [|action actions IH]; intros state H;
    [reflexivity|].
  cbn [existsb] in H. apply orb_false_iff in H as [Haction H].
  cbn [fold_left]. rewrite (IH _ H).
  destruct action; try reflexivity. discriminate.
Qed.

Lemma reducer_keeps_error (actions : list Context.VocabularyAction)
  (state : Context.VocabularyState) :
  existsb setsError actions = false ->
  Context.error (fold_left Context.vocabularyReducer actions state)
  = Context.error state.
Proof.
  revert state. induction actions as [|action actions IH]; intros state H;
    [reflexivity|].
  cbn [existsb] in H. apply orb_false_iff in H as [Haction H].
  cbn [fold_left]. rewrite (IH _ H).
  destruct action; try reflexivity. discriminate.
Qed.

(** X22.  The reducer keeps the last payloads: after a SET_WORDS the words
    of the state are its payload until the next SET_WORDS, and after a
    SET_ERROR the error is its payload until the next SET_ERROR, whatever
    else is dispatched; ADD_WORD, UPDATE_WORD and DELETE_WORD change
    nothing at all. *)
Theorem reducer_follows_last_payload :
  forall (state : Context.VocabularyState)
         (before noWords noError : list Context.VocabularyAction),
    existsb setsWords noWords = false ->
    existsb setsError noError = false ->
    (forall payload,
       Context.words
         (fold_left Context.vocabularyReducer
            (before ++ Context.SET_WORDS payload :: noWords) state)
       = payload)
    /\ (forall payload,
          Context.error
            (fold_left Context.vocabularyReducer
               (before ++ Context.SET_ERROR payload :: noError) state)
          = payload)
    /\ Context.words
         (fold_left Context.vocabularyReducer (before ++ noWords) state)
       = Context.words (fold_left Context.vocabularyReducer before state)
    /\ Context.error
         (fold_left Context.vocabularyReducer (before ++ noError) state)
       = Context.error (fold_left Context.vocabularyReducer before state)
    /\ (forall word id,
          Context.vocabularyReducer state (Context.ADD_WORD word) = state
          /\ Context.vocabularyReducer state (Context.UPDATE_WORD word)
             = state
          /\ Context.vocabularyReducer state (Context.DELETE_WORD id)
             = state).
Proof.
  intros state before noWords noError Hwords Herror.
  split; [|split; [|split; [|split]]].
  - intros payload. rewrite fold_left_app. cbn [fold_left].
    rewrite (reducer_keeps_words _ _ Hwords). reflexivity.
  - intros payload. rewrite fold_left_app. cbn [fold_left].
    rewrite (reducer_keeps_error _ _ Herror). reflexivity.
  - rewrite fold_left_app. apply reducer_keeps_words, Hwords.
  - rewrite fold_left_app. apply reducer_keeps_error, Herror.
  - intros word id. repeat split.
Qed.

Lemma reducer_follows_last_payload_witness :
  let casa := {| Vocabulary.id := js "w1";
                 Vocabulary.portuguese := js "casa";
                 Vocabulary.french := js "maison";
                 Vocabulary.examples := [];
                 Vocabulary.createdAt := 1; Vocabulary.updatedAt := 1 |} in
  Context.words
    (fold_left Context.vocabularyReducer
       ([Context.SET_LOADING true]
        ++ Context.SET_WORDS [casa]
           :: [Context.DELETE_WORD (js "w1");
               Context.SET_ERROR (Some (js "Failed to refresh words"))])
       Context.initialState)
  = [casa].
Proof.
  intros casa.
  exact (proj1 (reducer_follows_last_payload Context.initialState
                  [Context.SET_LOADING true]
                  [Context.DELETE_WORD (js "w1");
                   Context.SET_ERROR (Some (js "Failed to refresh words"))]
                  [Context.SET_WORDS [casa]]
                  eq_refl eq_refl) [casa]).
Defined.

Lemma filter_sublist_of {A : Type} (p : A -> bool) (l : list A) :
  sublist (List.filter p l) l.
Proof.
  induction l as [|a l IH]; [constructor|].
  cbn [List.filter]. destruct (p a); constructor; exact IH.
Qed.

(** The trimmed text is empty exactly when the text is blank: it holds
    nothing but white space. *)
Lemma trim_empty_iff (s : jsstring) :
  trim s = [] <-> forallb isWhiteSpace s = true.
Proof.
  split; [|apply trim_blank].
  intros Hempty.
  destruct (trim_infix s) as (pre & post & Hs & Hpre & Hpost).
  rewrite Hempty in Hs. rewrite Hs. cbn [app].
  rewrite forallb_app, Hpre, Hpost. reflexivity.
Qed.

(** X23.  What the add screen saves: the store is called only when both
    texts hold something else than white space, and then with the trimmed
    texts, with exactly the examples that are not blank, each as often as it
    was typed, untrimmed and in order, and with the two readings of the
    clock.  Otherwise the alert names the first missing text. *)
Theorem handleSave_saves_clean_word :
  forall (portuguese french : jsstring) (examples : list jsstring)
         (storeFails : bool) (now1 now2 : Z),
    match AddScreen.handleSave portuguese french examples storeFails
            now1 now2 with
    | (Some word, outcome) =>
      Context.newPortuguese word = trim portuguese
      /\ Context.newFrench word = trim french
      /\ Context.newPortuguese word <> []
      /\ Context.newFrench word <> []
      /\ forallb isWhiteSpace portuguese = false
      /\ forallb isWhiteSpace french = false
      /\ Context.newExamples word
         = List.filter (fun e => negb (forallb isWhiteSpace e)) examples
      /\ sublist (Context.newExamples word) examples
      /\ (forall e, In e (Context.newExamples word)
                    <-> In e examples /\ trim e <> [])
      /\ Context.newCreatedAt word = now1
      /\ Context.newUpdatedAt word = now2
      /\ outcome = (if storeFails then AddScreen.SaveFailed
                    else AddScreen.WentBack)
    | (None, outcome) =>
      (forallb isWhiteSpace portuguese = true
       /\ outcome = AddScreen.MissingPortuguese)
      \/ (forallb isWhiteSpace portuguese = false
          /\ forallb isWhiteSpace french = true
          /\ outcome = AddScreen.MissingFrench)
    end.
Proof.
  intros portuguese french examples storeFails now1 now2.
  unfold AddScreen.handleSave.
  assert (Hblank : forall t c rest,
            trim t = c :: rest -> forallb isWhiteSpace t = false).
  { intros t c rest Ht. apply not_true_is_false. intros Hall.
    apply trim_empty_iff in Hall. congruence. }
  destruct (trim portuguese) as [|c pt] eqn:Hpt.
  { left. split; [apply trim_empty_iff, Hpt|reflexivity]. }
  destruct (trim french) as [|d fr] eqn:Hfr.
  { right. split; [exact (Hblank _ _ _ Hpt)|].
    split; [apply trim_empty_iff, Hfr|reflexivity]. }
  cbn [Context.addWord Context.newPortuguese Context.newFrench
       Context.newExamples Context.newCreatedAt Context.newUpdatedAt].
  rewrite Hpt, Hfr.
  split; [reflexivity|]. split; [reflexivity|].
  split; [discriminate|]. split; [discriminate|].
  split; [exact (Hblank _ _ _ Hpt)|]. split; [exact (Hblank _ _ _ Hfr)|].
  split.
  { apply List.filter_ext. intros e. f_equal.
    destruct (str_eqb (trim e) []) eqn:E.
    - apply str_eqb_nil_r, trim_empty_iff in E. congruence.
    - destruct (forallb isWhiteSpace e) eqn:Hall; [|reflexivity].
      apply trim_empty_iff, str_eqb_nil_r in Hall. congruence. }
  split; [apply filter_sublist_of|].
  split; [|repeat split].
  intros e. rewrite filter_In. split.
  - intros [Hin Hkept]. split; [exact Hin|].
    intros Hempty. rewrite Hempty in Hkept. discriminate.
  - intros [Hin Hne]. split; [exact Hin|].
    destruct (str_eqb (trim e) []) eqn:E; [|reflexivity].
    apply str_eqb_nil_r in E. contradiction.
Qed.

Lemma parseSentences_kept (text : option jsstring)
  (sentences : list jsstring) :
  GeminiText.parseSentences text = inr sentences ->
  List.filter (fun e => negb (str_eqb (trim e) [])) sentences = sentences.
Proof.
  unfold GeminiText.parseSentences.
  destruct text as [t|]; cbn [option_map]; [|discriminate].
  destruct (trim t) as [|c generated]; [discriminate|].
  intros H. injection H as H. subst sentences.
  match goal with
  | |- context [map (fun line => trim (GeminiText.stripNumbering line)) ?l]
    => generalize l
  end.
  intros lines. induction lines as [|line lines IH]; [reflexivity|].
  cbn [map List.filter].
  destruct (GeminiText.nonEmpty (trim (GeminiText.stripNumbering line)))
    eqn:Hline; [|exact IH].
  cbn [List.filter]. rewrite trim_idempotent.
  destruct (str_eqb (trim (GeminiText.stripNumbering line)) []) eqn:E.
  - apply str_eqb_nil_r in E. rewrite E in Hline. discriminate.
  - cbn [negb]. rewrite IH. reflexivity.
Qed.

(** X24.  The generated examples are saved as they are: when the sentences
    returned by [generateExampleSentences] become the examples of the add
    screen and both texts are filled in, [handleSave] hands every one of
    them to the store, unchanged and in order. *)
Theorem generated_examples_saved :
  forall (text : option jsstring) (sentences : list jsstring)
         (portuguese french : jsstring) (storeFails : bool)
         (now1 now2 : Z),
    GeminiText.parseSentences text = inr sentences ->
    trim portuguese <> [] ->
    trim french <> [] ->
    exists word,
      AddScreen.handleSave portuguese french sentences storeFails now1 now2
      = (Some word,
         if storeFails then AddScreen.SaveFailed else AddScreen.WentBack)
      /\ Context.newExamples word = sentences.
Proof.
  intros text sentences portuguese french storeFails now1 now2
    Hparse Hpt Hfr.
  unfold AddScreen.handleSave.
  destruct (trim portuguese) as [|c pt]; [contradiction|].
  destruct (trim french) as [|d fr]; [contradiction|].
  eexists. split; [reflexivity|].
  cbn [Context.addWord Context.newExamples].
  exact (parseSentences_kept text sentences Hparse).
Qed.

Lemma generated_examples_saved_witness :
  exists word,
    AddScreen.handleSave (js "casa ") (js "maison")
      [js "A casa é grande."; js "Eu gosto da minha casa."] false 1%Z 2%Z
    = (Some word, AddScreen.WentBack)
    /\ Context.newExamples word
       = [js "A casa é grande."; js "Eu gosto da minha casa."].
Proof.
  apply (generated_examples_saved
           (Some (join GeminiText.lineFeed
                    [js "1. A casa é grande.";
                     js "2) Eu gosto da minha casa."; []]))
           [js "A casa é grande."; js "Eu gosto da minha casa."]
           (js "casa ") (js "maison") false 1%Z 2%Z).
  - vm_compute. reflexivity.
  - vm_compute. discriminate.
  - vm_compute. discriminate.
Defined.

Lemma removeAt_take_drop (index : nat) (examples : list jsstring) :
  AddScreen.removeAt index examples
  = take index examples ++ drop (S index) examples.
Proof.
  revert index. induction examples as [|e examples IH]; intros index.
  - destruct index; reflexivity.
  - destruct index as [|index]; [reflexivity|].
    cbn [AddScreen.removeAt take drop app]. rewrite IH. reflexivity.
Qed.

(** X25.  Removing an example field never leaves the add screen without a
    field: with two fields or more the one at the index goes and the others
    keep their order, otherwise one empty field remains.  A field that was
    just added is removed again without a trace, unless it is the only
    one. *)
Theorem removeExample_keeps_a_field :
  forall (index : nat) (examples : list jsstring),
    AddScreen.removeExample index examples <> []
    /\ AddScreen.removeExample index examples
       = match examples with
         | [] | [_] => [[]]
         | _ => take index examples ++ drop (S index) examples
         end
    /\ (length (AddScreen.removeExample index examples)
        <= Nat.max 1 (length examples))%nat
    /\ AddScreen.removeExample (length examples)
         (AddScreen.addExampleField examples)
       = match examples with
         | [] => [[]]
         | _ => examples
         end.
Proof.
  intros index examples.
  assert (Hshape : AddScreen.removeExample index examples
                   = match examples with
                     | [] | [_] => [[]]
                     | _ => take index examples ++ drop (S index) examples
                     end).
  { destruct examples as [|e [|e' examples]]; try reflexivity.
    unfold AddScreen.removeExample. cbn [length Nat.ltb Nat.leb].
    apply removeAt_take_drop. }
  split; [|split; [exact Hshape|split]].
  - rewrite Hshape. destruct examples as [|e [|e' examples]];
      try discriminate.
    destruct index; discriminate.
  - rewrite Hshape. destruct examples as [|e [|e' examples]];
      cbn [length]; try lia.
    rewrite length_app, length_take, length_drop. cbn [length]. lia.
  - destruct examples as [|e examples]; [reflexivity|].
    unfold AddScreen.removeExample, AddScreen.addExampleField.
    rewrite length_app. cbn [length].
    replace (1 <? S (length examples) + 1)%nat with true
      by (symmetry; apply Nat.ltb_lt; lia).
    rewrite removeAt_take_drop.
    change (S (length examples)) with (length (e :: examples)).
    rewrite take_app_length.
    rewrite drop_ge by (rewrite length_app; cbn [length]; lia).
    apply app_nil_r.
Qed.
